(** * File metadata utilities of lib/shared/files.js

    A shallow embedding of the module [lib/shared/files.js] and of the
    parts of its environment that it calls: Node's [path] module (POSIX
    flavour), the [fs] status and directory queries, lodash's array
    helpers and Bluebird's [map].

    JavaScript strings are sequences of code units: [list ascii].
    String indices are [Z], with [-1] as the "not found" value, as in
    the JavaScript sources. *)

From Stdlib Require Import List ZArith Lia Bool Ascii String Permutation.
Import ListNotations.
Local Open Scope Z_scope.

(** ** Strings *)

Definition str : Type := list ascii.

(** A string literal. *)
Definition lit (s : string) : str := list_ascii_of_string s.
Arguments lit : simpl never.

Definition CHAR_FORWARD_SLASH : ascii := "/"%char.
Definition CHAR_DOT : ascii := "."%char.

Definition isPosixPathSeparator (code : ascii) : bool :=
  Ascii.eqb code CHAR_FORWARD_SLASH.

Definition is_dot (code : ascii) : bool := Ascii.eqb code CHAR_DOT.

Definition len (s : str) : Z := Z.of_nat (List.length s).
Arguments len : simpl never.

(** [s.charCodeAt(i)]; [None] stands for NaN (index out of range). *)
Definition charCodeAt (s : str) (i : Z) : option ascii :=
  if i <? 0 then None else nth_error s (Z.to_nat i).

(** [c === CHAR_DOT] on the result of [charCodeAt]. *)
Definition code_is_dot (c : option ascii) : bool :=
  match c with
  | Some a => is_dot a
  | None => false
  end.

(** A relative index of [slice]: negative counts from the end, and the
    result is clamped to the string. *)
Definition slice_index (n k : Z) : Z :=
  if k <? 0 then Z.max (n + k) 0 else Z.min k n.

(** [s.slice(from, to)]. *)
Definition slice (s : str) (from to : Z) : str :=
  let a := slice_index (len s) from in
  let b := slice_index (len s) to in
  firstn (Z.to_nat (b - a)) (skipn (Z.to_nat a) s).

(** [s.lastIndexOf(c)] for a one-character search string: scans the
    string and keeps the last index at which [c] occurs. *)
Fixpoint lastIndexOf_from (c : ascii) (s : str) (i found : Z) : Z :=
  match s with
  | [] => found
  | x :: s' =>
      lastIndexOf_from c s' (i + 1) (if Ascii.eqb x c then i else found)
  end.

Definition lastIndexOf (s : str) (c : ascii) : Z :=
  lastIndexOf_from c s 0 (-1).

(** [s.startsWith(".")]. *)
Definition startsWith_dot (s : str) : bool :=
  match s with
  | c :: _ => is_dot c
  | [] => false
  end.

(** [s.replace(".", "")]: a string pattern replaces its first
    occurrence only. *)
Fixpoint replace_first_dot (s : str) : str :=
  match s with
  | [] => []
  | c :: s' => if is_dot c then s' else c :: replace_first_dot s'
  end.

(** [s.split(sep)] for a one-character separator: never empty, and
    [n] separators give [n + 1] pieces. *)
Fixpoint split (sep : ascii) (s : str) : list str :=
  match s with
  | [] => [[]]
  | c :: s' =>
      if Ascii.eqb c sep then [] :: split sep s'
      else match split sep s' with
           | [] => [[c]]
           | w :: ws => (c :: w) :: ws
           end
  end.

(** ** Node's [path] module, POSIX flavour

    [normalizeString], [normalize], [join] and [parse] follow the
    algorithms of Node's lib/path.js, loop for loop. *)

Module path.

Definition sep : ascii := CHAR_FORWARD_SLASH.

Record nstate : Type := mkNState {
  res : str;
  lastSegmentLength : Z;
  lastSlash : Z;
  dots : Z
}.

Definition nstate_init : nstate := mkNState [] 0 (-1) 0.

(** The tail of every separator branch: [lastSlash = i; dots = 0]. *)
Definition at_slash (r : str) (l : Z) (i : Z) : nstate := mkNState r l i 0.

(** The [dots === 2] branch when the last segment cannot be removed:
    [".."] is kept only above a relative root. *)
Definition above_root (allowAboveRoot : bool) (i : Z) (st : nstate) : nstate :=
  if allowAboveRoot
  then at_slash (res st ++ (if 0 <? len (res st) then lit "/.." else lit ".."))
                2 i
  else at_slash (res st) (lastSegmentLength st) i.

(** One iteration of the loop of [normalizeString], on the code unit
    [code] at index [i]. *)
Definition normalize_step (p : str) (allowAboveRoot : bool) (i : Z)
    (code : ascii) (st : nstate) : nstate :=
  if isPosixPathSeparator code then
    if (lastSlash st =? i - 1) || (dots st =? 1) then
      at_slash (res st) (lastSegmentLength st) i
    else if dots st =? 2 then
      if (len (res st) <? 2)
         || negb (lastSegmentLength st =? 2)
         || negb (code_is_dot (charCodeAt (res st) (len (res st) - 1)))
         || negb (code_is_dot (charCodeAt (res st) (len (res st) - 2)))
      then
        if 2 <? len (res st) then
          let lastSlashIndex := lastIndexOf (res st) sep in
          if lastSlashIndex =? -1 then at_slash [] 0 i
          else
            let r := slice (res st) 0 lastSlashIndex in
            at_slash r (len r - 1 - lastIndexOf r sep) i
        else if negb (len (res st) =? 0) then at_slash [] 0 i
        else above_root allowAboveRoot i st
      else above_root allowAboveRoot i st
    else
      let segment := slice p (lastSlash st + 1) i in
      at_slash (if 0 <? len (res st) then res st ++ sep :: segment
                else segment)
               (i - lastSlash st - 1) i
  else if is_dot code && negb (dots st =? -1) then
    mkNState (res st) (lastSegmentLength st) (lastSlash st) (dots st + 1)
  else
    mkNState (res st) (lastSegmentLength st) (lastSlash st) (-1).

(** The iterations [i < path.length], from index [i] on. *)
Fixpoint normalize_loop (p : str) (allowAboveRoot : bool) (i : Z)
    (cs : str) (st : nstate) : nstate :=
  match cs with
  | [] => st
  | code :: cs' =>
      normalize_loop p allowAboveRoot (i + 1) cs'
        (normalize_step p allowAboveRoot i code st)
  end.

(** The code unit the loop holds when it reaches [i = path.length]:
    the last one of the path, or [0] for the empty path. *)
Definition last_code (p : str) : ascii := last p zero.

(** [normalizeString(path, allowAboveRoot, "/", isPosixPathSeparator)].
    At [i = path.length] the loop stops when the last code unit was a
    separator, and otherwise runs once more on a separator. *)
Definition normalizeString (p : str) (allowAboveRoot : bool) : str :=
  let st := normalize_loop p allowAboveRoot 0 p nstate_init in
  if isPosixPathSeparator (last_code p) then res st
  else res (normalize_step p allowAboveRoot (len p) CHAR_FORWARD_SLASH st).

Definition isAbsolute (p : str) : bool :=
  match p with
  | c :: _ => isPosixPathSeparator c
  | [] => false
  end.

(** [path.normalize(p)]. *)
Definition normalize (p : str) : str :=
  if len p =? 0 then lit "."
  else
    let absolute := isAbsolute p in
    let trailingSeparator := isPosixPathSeparator (last_code p) in
    let q := normalizeString p (negb absolute) in
    if len q =? 0 then
      if absolute then lit "/"
      else if trailingSeparator then lit "./" else lit "."
    else
      let q' := if trailingSeparator then q ++ [sep] else q in
      if absolute then sep :: q' else q'.

(** The loop of [path.join]: [joined] is undefined ([None]) until the
    first non-empty argument. *)
Fixpoint join_loop (args : list str) (joined : option str) : option str :=
  match args with
  | [] => joined
  | arg :: args' =>
      join_loop args'
        (if 0 <? len arg then
           match joined with
           | None => Some arg
           | Some j => Some (j ++ sep :: arg)
           end
         else joined)
  end.

(** [path.join(...args)] on string arguments. *)
Definition join (args : list str) : str :=
  match join_loop args None with
  | None => lit "."
  | Some joined => normalize joined
  end.

Record ParsedPath : Type := mkParsedPath {
  root : str;
  dir : str;
  base : str;
  ext : str;
  name : str
}.

Record pstate : Type := mkPState {
  startDot : Z;
  startPart : Z;
  end_ : Z;
  matchedSlash : bool;
  preDotState : Z
}.

Definition pstate_init : pstate := mkPState (-1) 0 (-1) true 0.

(** The body of the loop of [path.parse] on a code unit that is not a
    separator. *)
Definition parse_char (i : Z) (code : ascii) (st : pstate) : pstate :=
  let st1 :=
    if end_ st =? -1
    then mkPState (startDot st) (startPart st) (i + 1) false (preDotState st)
    else st in
  if is_dot code then
    if startDot st1 =? -1
    then mkPState i (startPart st1) (end_ st1) (matchedSlash st1)
                  (preDotState st1)
    else if negb (preDotState st1 =? 1)
    then mkPState (startDot st1) (startPart st1) (end_ st1)
                  (matchedSlash st1) 1
    else st1
  else if negb (startDot st1 =? -1)
  then mkPState (startDot st1) (startPart st1) (end_ st1)
                (matchedSlash st1) (-1)
  else st1.

(** The loop of [path.parse], which runs from the end of the path
    backwards: [cs] holds the code units at indices [i], [i - 1], ...
    down to [start]. A separator after the last component ends the
    loop. *)
Fixpoint parse_loop (cs : str) (i : Z) (st : pstate) : pstate :=
  match cs with
  | [] => st
  | code :: cs' =>
      if isPosixPathSeparator code then
        if negb (matchedSlash st)
        then mkPState (startDot st) (i + 1) (end_ st) (matchedSlash st)
                      (preDotState st)
        else parse_loop cs' (i - 1) st
      else parse_loop cs' (i - 1) (parse_char i code st)
  end.

(** [path.parse(p)]. *)
Definition parse (p : str) : ParsedPath :=
  if len p =? 0 then mkParsedPath [] [] [] [] []
  else
    let absolute := isAbsolute p in
    let root_ := if absolute then lit "/" else [] in
    let start := if absolute then 1 else 0 in
    let st := parse_loop (rev (skipn (Z.to_nat start) p)) (len p - 1)
                pstate_init in
    let dir_ :=
      if 0 <? startPart st then slice p 0 (startPart st - 1)
      else if absolute then lit "/" else [] in
    if negb (end_ st =? -1) then
      let start' :=
        if (startPart st =? 0) && absolute then 1 else startPart st in
      if (startDot st =? -1)
         || (preDotState st =? 0)
         || ((preDotState st =? 1)
             && (startDot st =? end_ st - 1)
             && (startDot st =? startPart st + 1))
      then
        let b := slice p start' (end_ st) in
        mkParsedPath root_ dir_ b [] b
      else
        mkParsedPath root_ dir_
          (slice p start' (end_ st))
          (slice p (startDot st) (end_ st))
          (slice p start' (startDot st))
    else mkParsedPath root_ dir_ [] [] [].

End path.

(** ** JavaScript values, errors and effects *)

(** The values a caller can pass where the module expects a path. A
    string comes as a primitive or wrapped in a String object
    ([new String(s)]); [VObject] is any other object. *)
Inductive value : Type :=
| VUndefined
| VNull
| VBoolean (b : bool)
| VNumber (n : Z)
| VString (s : str)
| VStringObject (s : str)
| VObject.

Fixpoint str_eqb (a b : str) : bool :=
  match a, b with
  | [], [] => true
  | x :: a', y :: b' => Ascii.eqb x y && str_eqb a' b'
  | _, _ => false
  end.

(** An error object: its [name] and its [code] property, which is
    undefined ([None]) on errors that are not system errors. *)
Record error : Type := mkError {
  err_name : str;
  err_code : option str
}.

(** [err.code !== code]. *)
Definition code_differs (err : error) (code : str) : bool :=
  match err_code err with
  | Some c => negb (str_eqb c code)
  | None => true
  end.

(** The error of a call of a value that is not a function. *)
Definition TypeError_not_a_function : error := mkError (lit "TypeError") None.

(** What a synchronous call completes with. *)
Inductive completion (A : Type) : Type :=
| Normal (a : A)
| Throw (e : error).
Arguments Normal {A} a.
Arguments Throw {A} e.

(** [fs.Stats], as far as the module reads it. *)
Record Stats : Type := mkStats {
  stats_isDirectory : bool;
  stats_size : Z
}.

(** A state of the file system: what each status query and directory
    listing answers. The blocking and the promisified form of a query
    read the same state. *)
Record FileSystem : Type := mkFileSystem {
  fs_stat : value -> completion Stats;
  fs_lstat : str -> completion Stats;
  fs_readdir : str -> completion (list str)
}.

(** The queries a computation sends to the file system. *)
Inductive query : Type :=
| QStat (p : value)
| QLstat (p : str)
| QReaddir (p : str).

(** Blocking code: the queries performed, in order, and the
    completion. *)
Definition io (A : Type) : Type := (list query * completion A)%type.

Definition ret {A : Type} (a : A) : io A := ([], Normal a).

Definition bind {A B : Type} (m : io A) (f : A -> io B) : io B :=
  match m with
  | (t, Normal a) => let '(t', r) := f a in (t ++ t', r)
  | (t, Throw e) => (t, Throw e)
  end.

Notation "x <- m ;; k" := (bind m (fun x => k))
  (at level 61, m at next level, right associativity).

(** [try { body } catch (err) { handler }]. *)
Definition try_catch {A : Type} (body : io A) (handler : error -> io A) : io A :=
  match body with
  | (t, Normal a) => (t, Normal a)
  | (t, Throw e) => let '(t', r) := handler e in (t ++ t', r)
  end.

Definition trace {A : Type} (m : io A) : list query := fst m.
Definition outcome {A : Type} (m : io A) : completion A := snd m.

Definition statSync (fs : FileSystem) (p : value) : io Stats :=
  ([QStat p], fs_stat fs p).

Definition lstatSync (fs : FileSystem) (p : str) : io Stats :=
  ([QLstat p], fs_lstat fs p).

(** A promise: pending, or settled one way or the other. *)
Inductive promise (A : Type) : Type :=
| Pending
| Fulfilled (a : A)
| Rejected (e : error).
Arguments Pending {A}.
Arguments Fulfilled {A} a.
Arguments Rejected {A} e.

(** The promise of a promisified query, by what it settles with. *)
Definition promisify {A : Type} (c : completion A) : promise A :=
  match c with
  | Normal a => Fulfilled a
  | Throw e => Rejected e
  end.

Definition lstatAsync (fs : FileSystem) (p : str) : promise Stats :=
  promisify (fs_lstat fs p).

Definition readdirAsync (fs : FileSystem) (p : str) : promise (list str) :=
  promisify (fs_readdir fs p).

(** [p.then(f)] for a callback that returns a promise. *)
Definition then_ {A B : Type} (p : promise A) (f : A -> promise B) : promise B :=
  match p with
  | Pending => Pending
  | Fulfilled a => f a
  | Rejected e => Rejected e
  end.

(** [Boolean(x)] on an object: objects are truthy. *)
Definition Boolean_object {A : Type} (_ : A) : bool := true.

(** ** lodash *)

Module lodash.

(** [_.isString(v)]: true of a string primitive and of a String
    object. *)
Definition isString (v : value) : bool :=
  match v with
  | VString _ | VStringObject _ => true
  | _ => false
  end.

(** [_.update(array, ['0'], updater)]: element 0 becomes the updater's
    result on it; the updater sees undefined ([None]) on an empty
    array. *)
Definition update0 (array : list str) (updater : option str -> str) : list str :=
  match array with
  | [] => [updater None]
  | x :: xs => updater (Some x) :: xs
  end.

(** [_.compact]: drops the falsey values, which among strings is the
    empty one. *)
Definition compact (array : list str) : list str :=
  filter (fun s => negb (len s =? 0)) array.

(** [_.map(array, iteratee)] with an iteratee [(value, index)] that
    blocks and may throw: the calls run in order and the first throw
    ends the map. *)
Fixpoint map_from {A B : Type} (index : nat) (array : list A)
    (iteratee : A -> nat -> io B) : io (list B) :=
  match array with
  | [] => ret []
  | x :: xs =>
      y <- iteratee x index ;;
      ys <- map_from (S index) xs iteratee ;;
      ret (y :: ys)
  end.

Definition map {A B : Type} (array : list A) (iteratee : A -> nat -> io B)
    : io (list B) :=
  map_from 0 array iteratee.

End lodash.

(** ** Bluebird.map *)

Module Bluebird.

(** What a call of the mapper does: it throws, or it returns a promise,
    given here by what that promise settles with once its turn comes. *)
Inductive mapper_outcome (B : Type) : Type :=
| Throws (e : error)
| Returns (p : promise B).
Arguments Throws {B} e.
Arguments Returns {B} p.

(** The promise array of [Bluebird.map]: the slots of the results, the
    count of the slots filled, and the promise it stands for. *)
Record map_state (B : Type) : Type := mkMapState {
  values : list (option B);
  totalResolved : nat;
  settled : promise (list B)
}.
Arguments mkMapState {B} values totalResolved settled.
Arguments values {B} m.
Arguments totalResolved {B} m.
Arguments settled {B} m.

(** [values[index] = value]. *)
Fixpoint store {B : Type} (index : nat) (v : B) (slots : list (option B))
    : list (option B) :=
  match slots, index with
  | [], _ => []
  | _ :: rest, O => Some v :: rest
  | s :: rest, S i => s :: store i v rest
  end.

(** The results when every slot is filled. *)
Fixpoint collect {B : Type} (slots : list (option B)) : option (list B) :=
  match slots with
  | [] => Some []
  | Some v :: rest =>
      match collect rest with
      | Some vs => Some (v :: vs)
      | None => None
      end
  | None :: _ => None
  end.

(** The first pass over the input: the mapper is called on each element
    in order (no concurrency limit is given); a throw of the mapper
    rejects the promise array and the remaining elements are skipped.
    The result is the promises in flight, or the error. *)
Fixpoint iterate {A B : Type} (mapper : A -> mapper_outcome B) (arr : list A)
    : completion (list (promise B)) :=
  match arr with
  | [] => Normal []
  | x :: xs =>
      match mapper x with
      | Throws e => Throw e
      | Returns p =>
          match iterate mapper xs with
          | Normal ps => Normal (p :: ps)
          | Throw e => Throw e
          end
      end
  end.

(** The promise in flight at [index] settles. A settled promise array
    ignores it; a slot is filled once. A fulfilment fills its slot and
    resolves the array when it was the last one; a rejection rejects
    the array. *)
Definition settle {B : Type} (inflight : list (promise B)) (index : nat)
    (m : map_state B) : map_state B :=
  match settled m with
  | Pending =>
      match nth_error (values m) index, nth_error inflight index with
      | Some None, Some (Fulfilled v) =>
          let vs := store index v (values m) in
          let total := S (totalResolved m) in
          if (List.length (values m) <=? total)%nat then
            mkMapState vs total
              (match collect vs with
               | Some l => Fulfilled l
               | None => Pending
               end)
          else mkMapState vs total Pending
      | Some None, Some (Rejected e) =>
          mkMapState (values m) (S (totalResolved m)) (Rejected e)
      | _, _ => m
      end
  | _ => m
  end.

(** [Bluebird.map(arr, mapper)], with the order [sched] in which the
    promises in flight settle: a list of indices into [arr]. The
    result is the state of the returned promise after these events. *)
Definition map {A B : Type} (arr : list A) (mapper : A -> mapper_outcome B)
    (sched : list nat) : promise (list B) :=
  match iterate mapper arr with
  | Throw e => Rejected e
  | Normal inflight =>
      match inflight with
      | [] => Fulfilled []
      | _ =>
          settled
            (fold_left (fun m index => settle inflight index m) sched
               (mkMapState (List.map (fun _ => None) inflight) 0 Pending))
      end
  end.

End Bluebird.

(** ** The module lib/shared/files.js *)

Record FileMetadata : Type := mkFileMetadata {
  basename : str;
  dirname : str;
  fullpath : str;
  extension : str;
  name : str;
  isDirectory : bool;
  isHidden : bool;
  size : Z
}.

(** A parameter with the default value [''], which stands in for an
    argument that is undefined ([None]). *)
Definition default_empty (arg : option str) : str :=
  match arg with
  | Some s => s
  | None => []
  end.

Definition exists_ (fs : FileSystem) (fullpath : value) : io bool :=
  try_catch
    (stats <- statSync fs fullpath ;;
     ret (Boolean_object stats))
    (fun err => ret (code_differs err (lit "ENOENT"))).

Definition getFileMetadataSync (fs : FileSystem) (dirname : str)
    (basename : option str) : io FileMetadata :=
  let basename := default_empty basename in
  let fullpath := path.join [dirname; basename] in
  let pathObj := path.parse fullpath in
  let isHidden := startsWith_dot (path.base pathObj) in
  stats <- lstatSync fs fullpath ;;
  ret (mkFileMetadata
         (path.base pathObj)
         (path.dir pathObj)
         fullpath
         (replace_first_dot (path.ext pathObj))
         (path.name pathObj)
         (stats_isDirectory stats)
         isHidden
         (stats_size stats)).

Definition getFileMetadataAsync (fs : FileSystem) (dirname : str)
    (basename : option str) : promise FileMetadata :=
  let basename := default_empty basename in
  let fullpath := path.join [dirname; basename] in
  let pathObj := path.parse fullpath in
  let isHidden := startsWith_dot (path.base pathObj) in
  then_ (lstatAsync fs fullpath) (fun stats =>
    Fulfilled (mkFileMetadata
                 (path.base pathObj)
                 (path.dir pathObj)
                 fullpath
                 (replace_first_dot (path.ext pathObj))
                 (path.name pathObj)
                 (stats_isDirectory stats)
                 isHidden
                 (stats_size stats))).

Definition getAllFilesMetadataAsync (fs : FileSystem) (dirname : str)
    (basenames : list str) (sched : list nat) : promise (list FileMetadata) :=
  Bluebird.map basenames (fun basename =>
    Bluebird.Returns (getFileMetadataAsync fs dirname (Some basename)))
    sched.

(** The functions the module assigns on [exports]. *)
Inductive export_fn : Type :=
| Fexists
| FgetFileMetadataSync
| FgetFileMetadataAsync
| FgetAllFilesMetadataAsync
| FgetDirectoryContents
| FgetDirectory
| Fsubpaths.

(** The [exports] object: every property the module assigns, in the
    order of the source. *)
Definition exports : list (str * export_fn) :=
  [ (lit "exists", Fexists);
    (lit "getFileMetadataSync", FgetFileMetadataSync);
    (lit "getFileMetadataAsync", FgetFileMetadataAsync);
    (lit "getAllFilesMetadataAsync", FgetAllFilesMetadataAsync);
    (lit "getDirectoryContents", FgetDirectoryContents);
    (lit "getDirectory", FgetDirectory);
    (lit "subpaths", Fsubpaths) ].

(** [exports[key]]; [None] is undefined. *)
Fixpoint get_property (obj : list (str * export_fn)) (key : str)
    : option export_fn :=
  match obj with
  | [] => None
  | (k, f) :: rest => if str_eqb k key then Some f else get_property rest key
  end.

(** A call [f(dirname, basename)] in the place of a mapper, for the
    exported functions that build one metadata record. A record that
    the blocking builder returns is a result at once, which a promise
    that is already fulfilled stands for. The other exported functions
    do not return a metadata record; no property read of this module
    reaches them here, and the call is given the outcome of a call
    that fails. *)
Definition call_builder (f : export_fn) (fs : FileSystem)
    (dirname basename : str) : Bluebird.mapper_outcome FileMetadata :=
  match f with
  | FgetFileMetadataSync =>
      match outcome (getFileMetadataSync fs dirname (Some basename)) with
      | Normal m => Bluebird.Returns (Fulfilled m)
      | Throw e => Bluebird.Throws e
      end
  | FgetFileMetadataAsync =>
      Bluebird.Returns (getFileMetadataAsync fs dirname (Some basename))
  | _ => Bluebird.Throws TypeError_not_a_function
  end.

(** [exports[key](dirname, basename)]: the call of an undefined
    property throws a TypeError. *)
Definition call_export (key : str) (fs : FileSystem) (dirname basename : str)
    : Bluebird.mapper_outcome FileMetadata :=
  match get_property exports key with
  | Some f => call_builder f fs dirname basename
  | None => Bluebird.Throws TypeError_not_a_function
  end.

Definition getDirectoryContents (fs : FileSystem) (dirname : str)
    (sched : list nat) : promise (list FileMetadata) :=
  then_ (readdirAsync fs dirname) (fun contents =>
    Bluebird.map contents (fun basename =>
      call_export (lit "getFileMetadata") fs dirname basename)
      sched).

Definition getDirectory (fs : FileSystem) (dirname : str)
    : promise (list str) :=
  readdirAsync fs dirname.

(** The updater of [subpaths]: [root || '/']; undefined and the empty
    string are falsey. *)
Definition root_or_slash (root : option str) : str :=
  match root with
  | Some (c :: r) => c :: r
  | _ => lit "/"
  end.

(** [subpaths(fullpath)]; [None] is null. The method [split] works
    on the characters of a string, primitive or wrapped. *)
Definition subpaths (fs : FileSystem) (fullpath : value)
    : io (option (list FileMetadata)) :=
  if negb (lodash.isString fullpath) then ret None
  else
    match fullpath with
    | VString s | VStringObject s =>
        let dirs :=
          lodash.compact (lodash.update0 (split path.sep s) root_or_slash) in
        l <- lodash.map dirs (fun dir index =>
               let subdir := firstn (index + 1) dirs in
               getFileMetadataSync fs (path.join subdir) None) ;;
        ret (Some l)
    | _ => ret None
    end.

(** ** Example file systems *)

Definition ENOENT : error := mkError (lit "Error") (Some (lit "ENOENT")).
Definition EACCES : error := mkError (lit "Error") (Some (lit "EACCES")).

(** Every status query answers with a directory, every listing is
    empty. *)
Definition fs_all_dirs : FileSystem :=
  mkFileSystem
    (fun _ => Normal (mkStats true 4096))
    (fun _ => Normal (mkStats true 4096))
    (fun _ => Normal []).

(** The directory /tmp/x with the file notes.txt of 3 bytes and the
    directory sub. *)
Definition fs_tmp_x : FileSystem :=
  let status (p : str) : completion Stats :=
    if str_eqb p (lit "/tmp/x/notes.txt") then Normal (mkStats false 3)
    else if str_eqb p (lit "/tmp/x/sub") then Normal (mkStats true 4096)
    else if str_eqb p (lit "/tmp/x") then Normal (mkStats true 4096)
    else if str_eqb p (lit "/tmp") then Normal (mkStats true 4096)
    else if str_eqb p (lit "/") then Normal (mkStats true 4096)
    else Throw ENOENT in
  mkFileSystem
    (fun v => match v with
              | VString p => status p
              | _ => Throw (mkError (lit "TypeError")
                              (Some (lit "ERR_INVALID_ARG_TYPE")))
              end)
    status
    (fun p => if str_eqb p (lit "/tmp/x")
              then Normal [lit "notes.txt"; lit "sub"]
              else Throw ENOENT).

(** The directory /root can be neither searched nor read: every query
    under it fails with EACCES. *)
Definition fs_denied : FileSystem :=
  mkFileSystem
    (fun _ => Throw EACCES)
    (fun _ => Throw EACCES)
    (fun _ => Throw EACCES).

(** The directory /d lists the entry gone, which was removed after the
    listing was taken: its status query fails with ENOENT. *)
Definition fs_entry_gone : FileSystem :=
  let status (p : str) : completion Stats :=
    if str_eqb p (lit "/d") then Normal (mkStats true 4096)
    else Throw ENOENT in
  mkFileSystem
    (fun v => match v with
              | VString p => status p
              | _ => Throw (mkError (lit "TypeError")
                              (Some (lit "ERR_INVALID_ARG_TYPE")))
              end)
    status
    (fun p => if str_eqb p (lit "/d") then Normal [lit "gone"]
              else Throw ENOENT).

(** ** Vocabulary of the properties *)

(** The value of a promise that is fulfilled. *)
Definition fulfilled_value {B : Type} (p : promise B) : option B :=
  match p with
  | Fulfilled v => Some v
  | _ => None
  end.

(** The values of the promises that are fulfilled, in their order. *)
Fixpoint values_of {B : Type} (ps : list (promise B)) : list B :=
  match ps with
  | [] => []
  | Fulfilled v :: ps' => v :: values_of ps'
  | _ :: ps' => values_of ps'
  end.

(** The error of the first promise, in the order of the schedule, that
    is rejected. *)
Fixpoint first_rejection {B : Type} (ps : list (promise B)) (sched : list nat)
    : option error :=
  match sched with
  | [] => None
  | j :: sched' =>
      match nth_error ps j with
      | Some (Rejected e) => Some e
      | _ => first_rejection ps sched'
      end
  end.

(** The state of a pending promise array after the promises at the
    indices [done] were fulfilled. *)
Definition map_inv {B : Type} (ps : list (promise B)) (done : list nat)
    (m : Bluebird.map_state B) : Prop :=
  Bluebird.settled m = Pending
  /\ Bluebird.totalResolved m = List.length done
  /\ List.length (Bluebird.values m) = List.length ps
  /\ (forall i, In i done ->
        exists v, nth_error ps i = Some (Fulfilled v)
                  /\ nth_error (Bluebird.values m) i = Some (Some v))
  /\ (forall i, (i < List.length ps)%nat -> ~ In i done ->
        nth_error (Bluebird.values m) i = Some None).

(** The promise the mapper of the batch returns for a name. *)
Definition lookup (fs : FileSystem) (d : str) (n : str) : promise FileMetadata :=
  getFileMetadataAsync fs d (Some n).

(** The code units of [n] hold no separator. *)
Definition no_separator (n : str) : bool :=
  forallb (fun c => negb (isPosixPathSeparator c)) n.

(** A name as a directory lists it: one path component, not empty and
    neither of the special entries [.] and [..]. *)
Definition entry_name (n : str) : bool :=
  negb (len n =? 0) && no_separator n
  && negb (str_eqb n (lit ".")) && negb (str_eqb n (lit "..")).

(** The count of dots over a run of code units without a separator:
    the length of the run while it holds dots only, and [-1] after. *)
Fixpoint scan_dots (cs : str) (d : Z) : Z :=
  match cs with
  | [] => d
  | c :: cs' => scan_dots cs' (if is_dot c && negb (d =? -1) then d + 1 else -1)
  end.

(** [res] with one more segment. *)
Definition push_segment (r c : str) : str :=
  if 0 <? len r then r ++ path.sep :: c else c.

(** A string that is empty or ends with a separator. *)
Definition ends_directory (x : str) : Prop :=
  x = [] \/ exists y, x = y ++ [path.sep].

(** The name split at its last dot: [Some (a, b)] when the name is
    [a ++ "." ++ b] and [b] has no dot, [None] when it has no dot. *)
Fixpoint split_last_dot (n : str) : option (str * str) :=
  match n with
  | [] => None
  | c :: n' =>
      match split_last_dot n' with
      | Some (a, b) => Some (c :: a, b)
      | None => if is_dot c then Some ([], n') else None
      end
  end.

(** The code units of [n] hold no dot. *)
Definition no_dot (n : str) : bool := forallb (fun c => negb (is_dot c)) n.

(** The loop of [path.parse] over code units that are no separators. *)
Fixpoint parse_chars (cs : str) (i : Z) (st : path.pstate) : path.pstate :=
  match cs with
  | [] => st
  | c :: cs' => parse_chars cs' (i - 1) (path.parse_char i c st)
  end.

(** The state of the loop after the whole name, which ends at index
    [i] and starts at index [o]. *)
Definition parsed_name (n : str) (o : Z) (sp : Z) : path.pstate :=
  match split_last_dot n with
  | None => path.mkPState (-1) sp (o + len n) false 0
  | Some (a, _) =>
      path.mkPState (o + len a) sp (o + len n) false
        (match a with
         | [] => 0
         | c :: _ => if is_dot c then 1 else -1
         end)
  end.

(** The record the builders produce for a path and its status. *)
Definition metadata_of (fullpath : str) (stats : Stats) : FileMetadata :=
  let pathObj := path.parse fullpath in
  mkFileMetadata
    (path.base pathObj) (path.dir pathObj) fullpath
    (replace_first_dot (path.ext pathObj)) (path.name pathObj)
    (stats_isDirectory stats) (startsWith_dot (path.base pathObj))
    (stats_size stats).

(** The part of a name after its last dot, and the empty string for a
    name without a dot. *)
Definition substring_after_last_dot (n : str) : str :=
  match split_last_dot n with
  | Some (_, b) => b
  | None => []
  end.

(** ["/c1/c2/.../ck"] for the components [c1 ... ck]. *)
Definition absolute_path (cs : list str) : str :=
  List.concat (List.map (cons path.sep) cs).

(** The same, with ["/"] for no component. *)
Definition root_path (cs : list str) : str :=
  match cs with
  | [] => lit "/"
  | _ => absolute_path cs
  end.

(** ["c1/c2/.../ck/"]. *)
Definition segments (cs : list str) : str :=
  List.concat (List.map (fun c => c ++ [path.sep]) cs).

(** The components of a path: the pieces between its separators that
    are not empty. *)
Definition components (s : str) : list str :=
  lodash.compact (split path.sep s).

(** The record [subpaths] builds at a level of an absolute path. *)
Definition level_metadata (fs : FileSystem) (cs : list str) (i : nat)
    : FileMetadata :=
  metadata_of (root_path (firstn i cs))
    (match fs_lstat fs (root_path (firstn i cs)) with
     | Normal stats => stats
     | Throw _ => mkStats false 0
     end).

(** The count of the slots that are filled. *)
Fixpoint count_filled {B : Type} (slots : list (option B)) : nat :=
  match slots with
  | [] => O
  | Some _ :: rest => S (count_filled rest)
  | None :: rest => count_filled rest
  end.

(** What a promise array may have come to after any events: it is
    pending with its filled slots counted, or fulfilled with the values
    of all its promises, or rejected with the error of one of them. *)
Definition map_safe {B : Type} (ps : list (promise B))
    (m : Bluebird.map_state B) : Prop :=
  List.length (Bluebird.values m) = List.length ps
  /\ (forall i v, nth_error (Bluebird.values m) i = Some (Some v) ->
                  nth_error ps i = Some (Fulfilled v))
  /\ match Bluebird.settled m with
     | Pending => Bluebird.totalResolved m = count_filled (Bluebird.values m)
     | Fulfilled l =>
         l = values_of ps /\ forall p, In p ps -> exists v, p = Fulfilled v
     | Rejected e => exists i, nth_error ps i = Some (Rejected e)
     end.

(** The list [dirs] that [subpaths] walks for a string. *)
Definition subpaths_dirs_of (s : str) : list str :=
  lodash.compact (lodash.update0 (split path.sep s) root_or_slash).

(** ["c1/c2/.../ck"] for the components [c1 ... ck]. *)
Definition relative_path (cs : list str) : str :=
  match cs with
  | [] => []
  | c :: cs' => c ++ absolute_path cs'
  end.

(** The status queries of the levels [0 .. k - 1] of an absolute path,
    the root first. *)
Definition level_queries (cs : list str) (k : nat) : list query :=
  List.map (fun i => QLstat (root_path (firstn i cs))) (seq 0 k).

(** * Properties *)

(** ** Strings *)

Lemma str_eqb_eq (a b : str) : str_eqb a b = true <-> a = b.
Proof.
  revert b; induction a as [|x a IH]; intros [|y b]; simpl;
    try (split; [discriminate | discriminate]); try tauto.
  rewrite andb_true_iff, Ascii.eqb_eq, IH.
  split; [intros [-> ->]; reflexivity | intros H; injection H; auto].
Qed.

Lemma str_eqb_refl (a : str) : str_eqb a a = true.
Proof. apply str_eqb_eq; reflexivity. Qed.

(** ** Blocking code *)

Lemma outcome_bind {A B : Type} (m : io A) (f : A -> io B) :
  outcome (bind m f)
  = match outcome m with
    | Normal a => outcome (f a)
    | Throw e => Throw e
    end.
Proof.
  unfold bind, outcome. destruct m as [t [a|e]]; simpl; [|reflexivity].
  destruct (f a); reflexivity.
Qed.

(** ** exists *)

(** C2. [exists] never throws; it returns false exactly when the status
    query fails with the code ENOENT, and true when the query succeeds
    and when it fails in any other way, whatever the input is. *)
Theorem exists_false_iff_ENOENT :
  forall (fs : FileSystem) (p : value),
    (exists b, outcome (exists_ fs p) = Normal b)
    /\ (outcome (exists_ fs p) = Normal false
        <-> exists e, fs_stat fs p = Throw e
                      /\ err_code e = Some (lit "ENOENT"))
    /\ (forall s, fs_stat fs p = Normal s ->
                  outcome (exists_ fs p) = Normal true)
    /\ (forall e, fs_stat fs p = Throw e ->
                  err_code e <> Some (lit "ENOENT") ->
                  outcome (exists_ fs p) = Normal true).
Proof.
  intros fs p.
  unfold exists_, statSync, try_catch, bind, ret, outcome, code_differs,
    Boolean_object.
  destruct (fs_stat fs p) as [s|e] eqn:Hq; simpl.
  - split; [eexists; reflexivity|].
    split; [|split; [reflexivity | discriminate]].
    split; [discriminate | intros (e & He & _); discriminate].
  - destruct (err_code e) as [c|] eqn:Hc; simpl.
    + destruct (str_eqb c (lit "ENOENT")) eqn:Heq; simpl.
      * apply str_eqb_eq in Heq; subst c.
        split; [eexists; reflexivity|].
        split; [|split; [discriminate|]].
        -- split; [intros _; exists e; auto | reflexivity].
        -- intros e' He' Hne. exfalso. apply Hne. congruence.
      * split; [eexists; reflexivity|].
        split; [|split; [discriminate | reflexivity]].
        split; [discriminate|].
        intros (e' & He' & Hc').
        assert (c = lit "ENOENT") as -> by congruence.
        rewrite str_eqb_refl in Heq. discriminate.
    + split; [eexists; reflexivity|].
      split; [|split; [discriminate | reflexivity]].
      split; [discriminate|].
      intros (e' & He' & Hc'). congruence.
Qed.

(** The three kinds of answers: a path that is there, a path that is
    not, and queries that fail for another reason (permission denied,
    an argument that is not a string). *)
Lemma exists_examples :
  outcome (exists_ fs_tmp_x (VString (lit "/tmp/x/notes.txt"))) = Normal true
  /\ outcome (exists_ fs_tmp_x (VString (lit "/tmp/x/missing"))) = Normal false
  /\ outcome (exists_ fs_denied (VString (lit "/root/secret"))) = Normal true
  /\ outcome (exists_ fs_tmp_x (VNumber 42)) = Normal true.
Proof. repeat split; reflexivity. Qed.

(** [exists] sends one status query, on its argument as it is. *)
Lemma exists_trace (fs : FileSystem) (p : value) :
  trace (exists_ fs p) = [QStat p].
Proof.
  unfold exists_, statSync, try_catch, bind, ret, trace.
  destruct (fs_stat fs p); reflexivity.
Qed.

(** ** The metadata builder, blocking and not *)

(** C5. On one state of the file system the blocking builder and the
    promise of the non-blocking one end alike: the same record, field
    for field, when the status query succeeds, and the same error when
    it fails. *)
Theorem getFileMetadata_sync_async :
  forall (fs : FileSystem) (dirname : str) (basename : option str),
    promisify (outcome (getFileMetadataSync fs dirname basename))
    = getFileMetadataAsync fs dirname basename.
Proof.
  intros fs d b.
  unfold getFileMetadataSync, getFileMetadataAsync.
  unfold lstatSync, lstatAsync, then_, promisify.
  rewrite outcome_bind. cbn [outcome snd].
  destruct (fs_lstat fs (path.join [d; default_empty b])) as [stats|e].
  - reflexivity.
  - reflexivity.
Qed.

(** The blocking builder sends one link-status query, on the joined
    path. *)
Lemma getFileMetadataSync_trace (fs : FileSystem) (d : str) (b : option str) :
  trace (getFileMetadataSync fs d b)
  = [QLstat (path.join [d; default_empty b])].
Proof.
  unfold getFileMetadataSync, lstatSync, bind, ret, trace.
  destruct (fs_lstat fs (path.join [d; default_empty b])); reflexivity.
Qed.

(** ** subpaths on an argument that is not a string *)



(** A String object is walked as the primitive string of its
    characters is. *)
Lemma subpaths_string_object (fs : FileSystem) (s : str) :
  subpaths fs (VStringObject s) = subpaths fs (VString s).
Proof. reflexivity. Qed.


(** ** getDirectoryContents *)

Lemma exports_getFileMetadata_undefined :
  get_property exports (lit "getFileMetadata") = None.
Proof. reflexivity. Qed.

Lemma call_getFileMetadata_throws (fs : FileSystem) (d b : str) :
  call_export (lit "getFileMetadata") fs d b
  = Bluebird.Throws TypeError_not_a_function.
Proof. reflexivity. Qed.

(** A mapper that throws on the first element rejects the map at once,
    whatever the schedule. *)
Lemma Bluebird_map_mapper_throws {A B : Type} (mapper : A -> Bluebird.mapper_outcome B)
    (x : A) (xs : list A) (e : error) (sched : list nat) :
  mapper x = Bluebird.Throws e ->
  Bluebird.map (x :: xs) mapper sched = Rejected e.
Proof.
  intros H. unfold Bluebird.map. simpl. rewrite H. reflexivity.
Qed.

Lemma Bluebird_map_nil {A B : Type} (mapper : A -> Bluebird.mapper_outcome B)
    (sched : list nat) :
  Bluebird.map [] mapper sched = Fulfilled [].
Proof. reflexivity. Qed.

(** C10. [getDirectoryContents] calls [exports.getFileMetadata], which
    the module never defines: on a directory that can be read and has
    an entry the promise is rejected with a TypeError, whatever the
    status of the entries and the order of events, and on an empty
    directory it is fulfilled with the empty sequence. *)
Theorem getDirectoryContents_undefined_builder :
  forall (fs : FileSystem) (dirname : str) (contents : list str)
         (sched : list nat),
    fs_readdir fs dirname = Normal contents ->
    get_property exports (lit "getFileMetadata") = None
    /\ (contents <> [] ->
        getDirectoryContents fs dirname sched
        = Rejected TypeError_not_a_function)
    /\ (contents = [] ->
        getDirectoryContents fs dirname sched = Fulfilled []).
Proof.
  intros fs d contents sched Hread.
  split; [reflexivity|].
  unfold getDirectoryContents, readdirAsync. rewrite Hread. simpl.
  split.
  - destruct contents as [|x xs]; [congruence|]. intros _.
    apply Bluebird_map_mapper_throws. reflexivity.
  - intros ->. reflexivity.
Qed.

Lemma getDirectoryContents_undefined_builder_witness :
  fs_readdir fs_tmp_x (lit "/tmp/x") = Normal [lit "notes.txt"; lit "sub"]
  /\ get_property exports (lit "getFileMetadata") = None
  /\ (([lit "notes.txt"; lit "sub"] : list str) <> [] ->
      getDirectoryContents fs_tmp_x (lit "/tmp/x") [0%nat; 1%nat]
      = Rejected TypeError_not_a_function)
  /\ (([lit "notes.txt"; lit "sub"] : list str) = [] ->
      getDirectoryContents fs_tmp_x (lit "/tmp/x") [0%nat; 1%nat]
      = Fulfilled []).
Proof.
  split; [reflexivity|].
  apply (getDirectoryContents_undefined_builder fs_tmp_x (lit "/tmp/x")
           [lit "notes.txt"; lit "sub"] [0%nat; 1%nat]).
  reflexivity.
Defined.

(** C1. The directory /tmp/x can be read and lists notes.txt and sub,
    and the status query of each succeeds; [getDirectoryContents] still
    gives no record: its promise is rejected with the TypeError of the
    call of the undefined [exports.getFileMetadata]. *)
Theorem getDirectoryContents_tmp_x_rejected :
  fs_readdir fs_tmp_x (lit "/tmp/x") = Normal [lit "notes.txt"; lit "sub"]
  /\ (exists r1 r2,
        getAllFilesMetadataAsync fs_tmp_x (lit "/tmp/x")
          [lit "notes.txt"; lit "sub"] [0%nat; 1%nat]
        = Fulfilled [r1; r2]
        /\ basename r1 = lit "notes.txt" /\ basename r2 = lit "sub")
  /\ getDirectoryContents fs_tmp_x (lit "/tmp/x") [0%nat; 1%nat]
     = Rejected TypeError_not_a_function.
Proof.
  split; [reflexivity|]. split; [|reflexivity].
  eexists; eexists. vm_compute. split; [reflexivity|]. split; reflexivity.
Qed.

(** C7. The directory /d lists the entry gone, whose status query fails
    with ENOENT. The batch lookup of that name is rejected with this
    error; [getDirectoryContents] is rejected too, but with the
    TypeError of the undefined [exports.getFileMetadata], not with the
    error of the lookup. *)
Theorem getDirectoryContents_entry_gone :
  fs_readdir fs_entry_gone (lit "/d") = Normal [lit "gone"]
  /\ getFileMetadataAsync fs_entry_gone (lit "/d") (Some (lit "gone"))
     = Rejected ENOENT
  /\ getAllFilesMetadataAsync fs_entry_gone (lit "/d") [lit "gone"] [0%nat]
     = Rejected ENOENT
  /\ getDirectoryContents fs_entry_gone (lit "/d") [0%nat]
     = Rejected TypeError_not_a_function
  /\ TypeError_not_a_function <> ENOENT.
Proof.
  repeat split; try reflexivity. discriminate.
Qed.

(** ** Bluebird.map under any order of settlement *)

Section BluebirdMap.

Local Open Scope nat_scope.

Context {B : Type}.

Lemma store_length (j : nat) (v : B) (slots : list (option B)) :
  List.length (Bluebird.store j v slots) = List.length slots.
Proof.
  revert j; induction slots as [|s slots IH]; intros [|j]; simpl; auto.
Qed.

Lemma nth_error_store_eq (j : nat) (v : B) (slots : list (option B)) :
  j < List.length slots ->
  nth_error (Bluebird.store j v slots) j = Some (Some v).
Proof.
  revert j; induction slots as [|s slots IH]; intros [|j]; simpl;
    try lia; auto.
  intros H. apply IH. lia.
Qed.

Lemma nth_error_store_neq (i j : nat) (v : B) (slots : list (option B)) :
  i <> j ->
  nth_error (Bluebird.store j v slots) i = nth_error slots i.
Proof.
  revert i j; induction slots as [|s slots IH]; intros [|i] [|j] H; simpl;
    try reflexivity; try lia.
  apply IH. lia.
Qed.

(** When every slot holds the value of its promise, the slots collect
    to the values in the order of the promises. *)
Lemma collect_filled (ps : list (promise B)) :
  forall slots : list (option B),
    List.length slots = List.length ps ->
    (forall i, i < List.length ps ->
       exists v, nth_error ps i = Some (Fulfilled v)
                 /\ nth_error slots i = Some (Some v)) ->
    Bluebird.collect slots = Some (values_of ps).
Proof.
  induction ps as [|p ps IH]; intros [|s slots] Hlen Hall; simpl in *;
    try discriminate; [reflexivity|].
  destruct (Hall 0) as (v & Hp & Hs); [lia|]. simpl in Hp, Hs.
  injection Hp as ->. injection Hs as ->.
  rewrite (IH slots); [reflexivity | lia |].
  intros i Hi. destruct (Hall (S i)) as (w & Hp & Hs); [lia|].
  exists w; auto.
Qed.

(** A settled promise array ignores every later event. *)
Lemma settle_settled (ps : list (promise B)) (todo : list nat)
    (m : Bluebird.map_state B) :
  Bluebird.settled m <> Pending ->
  fold_left (fun m index => Bluebird.settle ps index m) todo m = m.
Proof.
  revert m; induction todo as [|j todo IH]; intros m H; simpl; [reflexivity|].
  assert (Bluebird.settle ps j m = m) as ->.
  { unfold Bluebird.settle. destruct (Bluebird.settled m); congruence. }
  apply IH; assumption.
Qed.

Lemma settle_events (ps : list (promise B)) :
  (forall p, In p ps -> p <> Pending) ->
  forall (todo done : list nat) (m : Bluebird.map_state B),
    todo <> [] ->
    map_inv ps done m ->
    NoDup todo ->
    (forall j, In j todo -> j < List.length ps /\ ~ In j done) ->
    (forall i, i < List.length ps -> In i done \/ In i todo) ->
    List.length done + List.length todo = List.length ps ->
    Bluebird.settled
      (fold_left (fun m index => Bluebird.settle ps index m) todo m)
    = match first_rejection ps todo with
      | Some e => Rejected e
      | None => Fulfilled (values_of ps)
      end.
Proof.
  intros Hsettled.
  induction todo as [|j todo IH]; intros done m Hne Hinv Hnd Hin Hcov Hlen;
    [congruence|].
  destruct Hinv as (Hpend & Htot & Hvlen & Hdone & Hfree).
  destruct (Hin j (or_introl eq_refl)) as [Hj Hjd].
  simpl fold_left. simpl first_rejection.
  assert (Hslot : nth_error (Bluebird.values m) j = Some None)
    by (apply Hfree; assumption).
  destruct (nth_error ps j) as [p|] eqn:Hp;
    [|apply nth_error_None in Hp; lia].
  assert (Hpin : In p ps) by (eapply nth_error_In; eassumption).
  destruct p as [|v|e]; [exfalso; eapply Hsettled; eauto| |].
  - (* the promise at [j] is fulfilled *)
    set (m' := Bluebird.settle ps j m).
    assert (Hm' : m' = let vs := Bluebird.store j v (Bluebird.values m) in
                       let total := S (Bluebird.totalResolved m) in
                       if List.length (Bluebird.values m) <=? total
                       then Bluebird.mkMapState vs total
                              (match Bluebird.collect vs with
                               | Some l => Fulfilled l
                               | None => Pending
                               end)
                       else Bluebird.mkMapState vs total Pending).
    { unfold m', Bluebird.settle. rewrite Hpend, Hslot, Hp. reflexivity. }
    assert (Hfilled : forall i, In i (j :: done) ->
              exists w, nth_error ps i = Some (Fulfilled w)
                        /\ nth_error (Bluebird.store j v (Bluebird.values m)) i
                           = Some (Some w)).
    { intros i [<-|Hi].
      - exists v. split; [assumption|]. apply nth_error_store_eq. lia.
      - destruct (Hdone i Hi) as (w & Hw1 & Hw2). exists w. split; [assumption|].
        rewrite nth_error_store_neq; [assumption|]. intros ->. contradiction. }
    inversion Hnd as [|? ? Hjt Hnd']; subst.
    destruct todo as [|j' todo'].
    + (* the last event *)
      simpl in Hlen. simpl.
      rewrite Hm'. cbv zeta.
      replace (List.length (Bluebird.values m) <=? S (Bluebird.totalResolved m))
        with true by (symmetry; apply Nat.leb_le; lia).
      simpl.
      rewrite (collect_filled ps); [reflexivity | rewrite store_length; lia |].
      intros i Hi. apply Hfilled.
      destruct (Hcov i Hi) as [Hd|[<-|[]]]; [right|left]; auto.
    + rewrite (IH (j :: done) m'); [reflexivity | discriminate | | assumption | | |].
      * rewrite Hm'. cbv zeta. simpl in Hlen.
        replace (List.length (Bluebird.values m) <=? S (Bluebird.totalResolved m))
          with false by (symmetry; apply Nat.leb_gt; lia).
        repeat split; simpl.
        -- lia.
        -- rewrite store_length; lia.
        -- exact Hfilled.
        -- intros i Hi Hni. simpl in Hni.
           rewrite nth_error_store_neq; [apply Hfree; tauto | intros ->; tauto].
      * intros i Hi. destruct (Hin i (or_intror Hi)) as [Hik Hid].
        split; [assumption|]. intros [<-|Hd]; contradiction.
      * intros i Hi. destruct (Hcov i Hi) as [Hd|[<-|Ht]];
          [left; right | left; left | right]; auto.
      * simpl in *. lia.
  - (* the promise at [j] is rejected *)
    assert (Hm' : Bluebird.settle ps j m
                  = Bluebird.mkMapState (Bluebird.values m)
                      (S (Bluebird.totalResolved m)) (Rejected e)).
    { unfold Bluebird.settle. rewrite Hpend, Hslot, Hp. reflexivity. }
    rewrite settle_settled; rewrite Hm'; simpl; [reflexivity | discriminate].
Qed.

(** The promise of [Bluebird.map] once every promise in flight has
    settled, in any order: rejected with the error of the first
    rejection, and otherwise fulfilled with the values in the order
    of the input. *)
Lemma Bluebird_map_settled {A : Type} (arr : list A)
    (mapper : A -> Bluebird.mapper_outcome B) (ps : list (promise B))
    (sched : list nat) :
  Bluebird.iterate mapper arr = Normal ps ->
  (forall p, In p ps -> p <> Pending) ->
  Permutation sched (seq 0 (List.length ps)) ->
  Bluebird.map arr mapper sched
  = match first_rejection ps sched with
    | Some e => Rejected e
    | None => Fulfilled (values_of ps)
    end.
Proof.
  intros Hit Hsettled Hperm. unfold Bluebird.map. rewrite Hit.
  destruct ps as [|p ps'] eqn:Eps.
  - apply Permutation_sym, Permutation_nil in Hperm. subst sched. reflexivity.
  - rewrite <- Eps in *.
    assert (Hk : List.length sched = List.length ps).
    { rewrite (Permutation_length Hperm). apply length_seq. }
    assert (Hin : forall j, In j sched <-> j < List.length ps).
    { intros j. split; intros H.
      - apply (Permutation_in _ Hperm), in_seq in H. lia.
      - apply (Permutation_in _ (Permutation_sym Hperm)), in_seq. lia. }
    apply (settle_events ps Hsettled sched []).
    + intros ->. rewrite Eps in Hk. discriminate.
    + repeat split; simpl.
      * apply length_map.
      * intros i [].
      * intros i Hi _. rewrite nth_error_map.
        destruct (nth_error ps i) eqn:E; [reflexivity|].
        apply nth_error_None in E. lia.
    + apply (Permutation_NoDup (Permutation_sym Hperm)), seq_NoDup.
    + intros j Hj. split; [apply Hin; assumption | intros []].
    + intros i Hi. right. apply Hin; assumption.
    + simpl. assumption.
Qed.

End BluebirdMap.

(** ** getAllFilesMetadataAsync *)

Section BatchLookup.

Local Open Scope nat_scope.

Variable fs : FileSystem.
Variable d : str.

Lemma lookup_settles (n : str) : lookup fs d n <> Pending.
Proof.
  unfold lookup, getFileMetadataAsync, lstatAsync, then_, promisify.
  destruct (fs_lstat fs (path.join [d; default_empty (Some n)])); discriminate.
Qed.

Lemma lookup_fulfilled (n : str) (s : Stats) :
  fs_lstat fs (path.join [d; n]) = Normal s ->
  exists m, lookup fs d n = Fulfilled m /\ fullpath m = path.join [d; n].
Proof.
  intros H. unfold lookup, getFileMetadataAsync, lstatAsync, then_, promisify.
  simpl default_empty. rewrite H. eexists. split; reflexivity.
Qed.

Lemma lookup_rejected (n : str) (e : error) :
  fs_lstat fs (path.join [d; n]) = Throw e <-> lookup fs d n = Rejected e.
Proof.
  unfold lookup, getFileMetadataAsync, lstatAsync, then_, promisify.
  simpl default_empty.
  destruct (fs_lstat fs (path.join [d; n])); split; congruence.
Qed.

Lemma iterate_lookups (names : list str) :
  Bluebird.iterate (fun n => Bluebird.Returns (lookup fs d n)) names
  = Normal (List.map (lookup fs d) names).
Proof.
  induction names as [|n names IH]; simpl; [reflexivity|].
  rewrite IH. reflexivity.
Qed.

Lemma lookups_settle (names : list str) (p : promise FileMetadata) :
  In p (List.map (lookup fs d) names) -> p <> Pending.
Proof.
  intros H. apply in_map_iff in H. destruct H as (n & <- & _).
  apply lookup_settles.
Qed.

Lemma first_rejection_none (names : list str) (sched : list nat) :
  (forall n, In n names -> exists m, lookup fs d n = Fulfilled m) ->
  first_rejection (List.map (lookup fs d) names) sched = None.
Proof.
  intros Hok. induction sched as [|j sched IH]; simpl; [reflexivity|].
  rewrite nth_error_map.
  destruct (nth_error names j) as [n|] eqn:E; simpl; [|assumption].
  destruct (Hok n (nth_error_In _ _ E)) as (m & ->). assumption.
Qed.

Lemma first_rejection_some (names : list str) (sched : list nat) (i : nat)
    (n : str) (e : error) :
  In i sched ->
  nth_error names i = Some n ->
  lookup fs d n = Rejected e ->
  exists n' e', In n' names /\ lookup fs d n' = Rejected e'
                /\ first_rejection (List.map (lookup fs d) names) sched = Some e'.
Proof.
  intros Hi Hn He. induction sched as [|j sched IH]; [destruct Hi|].
  simpl. rewrite nth_error_map.
  destruct (nth_error names j) as [n'|] eqn:E; simpl.
  - destruct (lookup fs d n') as [|m|e'] eqn:El.
    + exfalso. eapply lookup_settles; eassumption.
    + destruct Hi as [->|Hi]; [congruence | auto].
    + exists n', e'. split; [eapply nth_error_In; eassumption | auto].
  - destruct Hi as [->|Hi]; [congruence | auto].
Qed.

Lemma lookup_fulfilled_lstat (n : str) (m : FileMetadata) :
  lookup fs d n = Fulfilled m ->
  exists s, fs_lstat fs (path.join [d; n]) = Normal s.
Proof.
  unfold lookup, getFileMetadataAsync, lstatAsync, then_, promisify.
  simpl default_empty.
  destruct (fs_lstat fs (path.join [d; n])) as [s|e]; [eauto | discriminate].
Qed.

(** The first rejection stands at a place of the schedule: the lookup
    there failed, and the lookups at the places before it succeeded. *)
Lemma first_rejection_first (names : list str) (sched : list nat) (e : error) :
  (forall j, In j sched -> j < List.length names) ->
  first_rejection (List.map (lookup fs d) names) sched = Some e ->
  exists before j after n,
    sched = before ++ j :: after
    /\ nth_error names j = Some n
    /\ fs_lstat fs (path.join [d; n]) = Throw e
    /\ forall i, In i before ->
          exists ni si, nth_error names i = Some ni
                        /\ fs_lstat fs (path.join [d; ni]) = Normal si.
Proof.
  induction sched as [|j sched IH]; intros Hrange H; [discriminate|].
  simpl in H. rewrite nth_error_map in H.
  destruct (nth_error names j) as [n|] eqn:En.
  - simpl in H. destruct (lookup fs d n) as [|m|e'] eqn:El.
    + exfalso. eapply lookup_settles; eassumption.
    + destruct IH as (before & k & after & n' & -> & Hk & He & Hbefore);
        [intros i Hi; apply Hrange; right; assumption | assumption|].
      exists (j :: before), k, after, n'.
      split; [reflexivity|]. split; [assumption|]. split; [assumption|].
      intros i [<-|Hi]; [|apply Hbefore; assumption].
      destruct (lookup_fulfilled_lstat n m El) as (s & Hs).
      exists n, s. split; assumption.
    + injection H as ->.
      exists [], j, sched, n.
      split; [reflexivity|]. split; [assumption|].
      split; [apply lookup_rejected; assumption | intros i []].
  - apply nth_error_None in En.
    assert (j < List.length names) by (apply Hrange; left; reflexivity). lia.
Qed.

Lemma values_of_lookups (names : list str) :
  (forall n, In n names -> exists s, fs_lstat fs (path.join [d; n]) = Normal s) ->
  Forall2 (fun n m => lookup fs d n = Fulfilled m
                      /\ fullpath m = path.join [d; n])
    names (values_of (List.map (lookup fs d) names)).
Proof.
  induction names as [|n names IH]; intros Hok; simpl; [constructor|].
  destruct (Hok n (or_introl eq_refl)) as (s & Hs).
  destruct (lookup_fulfilled n s Hs) as (m & Hm & Hf).
  rewrite Hm. constructor; [auto|].
  apply IH. intros n' Hn'. apply Hok. right; assumption.
Qed.

Lemma getAllFilesMetadataAsync_lookups (names : list str) (sched : list nat) :
  getAllFilesMetadataAsync fs d names sched
  = Bluebird.map names (fun n => Bluebird.Returns (lookup fs d n)) sched.
Proof. reflexivity. Qed.

(** When a lookup of the batch fails, the batch is rejected, in any
    order of settlement, with the error of the first lookup to settle
    as failed: the schedule splits at the index [j] of a name whose
    status query fails with that error, and the status queries of the
    names that settled before it succeeded. No sequence of results is
    delivered. *)
Lemma getAllFilesMetadataAsync_fail_fast (names : list str)
    (sched : list nat) (n : str) (e : error) :
  Permutation sched (seq 0 (List.length names)) ->
  In n names ->
  fs_lstat fs (path.join [d; n]) = Throw e ->
  exists before j after n' e',
    sched = before ++ j :: after
    /\ nth_error names j = Some n'
    /\ fs_lstat fs (path.join [d; n']) = Throw e'
    /\ (forall i, In i before ->
           exists ni si, nth_error names i = Some ni
                         /\ fs_lstat fs (path.join [d; ni]) = Normal si)
    /\ getAllFilesMetadataAsync fs d names sched = Rejected e'.
Proof.
  intros Hperm Hn He.
  rewrite getAllFilesMetadataAsync_lookups.
  rewrite (Bluebird_map_settled names _ (List.map (lookup fs d) names) sched
             (iterate_lookups names) (lookups_settle names));
    [|rewrite length_map; assumption].
  apply In_nth_error in Hn. destruct Hn as (i & Hi).
  assert (Hrange : forall j, In j sched -> j < List.length names).
  { intros j Hj. apply (Permutation_in _ Hperm), in_seq in Hj. lia. }
  assert (His : In i sched).
  { apply (Permutation_in _ (Permutation_sym Hperm)), in_seq.
    assert (i < List.length names) by (apply nth_error_Some; congruence). lia. }
  destruct (first_rejection_some names sched i n e His Hi
              (proj1 (lookup_rejected n e) He)) as (n0 & e' & _ & _ & Hfirst).
  destruct (first_rejection_first names sched e' Hrange Hfirst)
    as (before & j & after & n' & Hsplit & Hj & Hfail & Hbefore).
  rewrite Hfirst.
  exists before, j, after, n', e'.
  split; [assumption|]. split; [assumption|]. split; [assumption|].
  split; [assumption | reflexivity].
Qed.

End BatchLookup.

(** C6. When every lookup of the batch succeeds, the batch is fulfilled
    with the records in the order of the input names, in whatever
    order the status queries complete; the record at each position is
    the one of the name at that position, with the joined path as
    [fullpath]. *)
Theorem getAllFilesMetadataAsync_input_order :
  forall (fs : FileSystem) (dirname : str) (basenames : list str)
         (sched : list nat),
    Permutation sched (seq 0 (List.length basenames)) ->
    (forall n, In n basenames ->
               exists s, fs_lstat fs (path.join [dirname; n]) = Normal s) ->
    exists records,
      getAllFilesMetadataAsync fs dirname basenames sched = Fulfilled records
      /\ Forall2 (fun n m =>
                    getFileMetadataAsync fs dirname (Some n) = Fulfilled m
                    /\ fullpath m = path.join [dirname; n])
           basenames records.
Proof.
  intros fs d names sched Hperm Hok.
  exists (values_of (List.map (lookup fs d) names)).
  split; [|apply values_of_lookups; assumption].
  rewrite getAllFilesMetadataAsync_lookups.
  rewrite (Bluebird_map_settled names _ (List.map (lookup fs d) names) sched
             (iterate_lookups fs d names) (lookups_settle fs d names));
    [|rewrite length_map; assumption].
  rewrite first_rejection_none; [reflexivity|].
  intros n Hn. destruct (Hok n Hn) as (s & Hs).
  destruct (lookup_fulfilled fs d n s Hs) as (m & Hm & _). eauto.
Qed.

Lemma getAllFilesMetadataAsync_input_order_witness :
  Permutation [1%nat; 0%nat]
    (seq 0 (List.length [lit "notes.txt"; lit "sub"]))
  /\ exists records,
       getAllFilesMetadataAsync fs_tmp_x (lit "/tmp/x")
         [lit "notes.txt"; lit "sub"] [1%nat; 0%nat] = Fulfilled records
       /\ Forall2 (fun n m =>
                     getFileMetadataAsync fs_tmp_x (lit "/tmp/x") (Some n)
                     = Fulfilled m
                     /\ fullpath m = path.join [lit "/tmp/x"; n])
            [lit "notes.txt"; lit "sub"] records.
Proof.
  assert (H : Permutation [1%nat; 0%nat]
                (seq 0 (List.length [lit "notes.txt"; lit "sub"])))
    by (simpl; apply perm_swap).
  split; [exact H|].
  apply (getAllFilesMetadataAsync_input_order fs_tmp_x (lit "/tmp/x")
           [lit "notes.txt"; lit "sub"] [1%nat; 0%nat] H).
  intros n [<-|[<-|[]]]; eexists; vm_compute; reflexivity.
Defined.

(** ** Strings and slices *)

Lemma len_app (a b : str) : len (a ++ b) = len a + len b.
Proof. unfold len. rewrite length_app. lia. Qed.

Lemma len_cons (c : ascii) (a : str) : len (c :: a) = 1 + len a.
Proof. unfold len. simpl List.length. lia. Qed.

Lemma len_nil : len [] = 0.
Proof. reflexivity. Qed.

Lemma len_nonneg (a : str) : 0 <= len a.
Proof. unfold len. lia. Qed.

Lemma len_zero (a : str) : len a = 0 -> a = [].
Proof.
  destruct a as [|c a]; [reflexivity|].
  rewrite len_cons. pose proof (len_nonneg a). lia.
Qed.

Lemma len_rev (a : str) : len (rev a) = len a.
Proof. unfold len. rewrite length_rev. reflexivity. Qed.

(** The slice that covers a middle part of a string is that part. *)
Lemma slice_middle (pre c tail : str) :
  slice (pre ++ c ++ tail) (len pre) (len pre + len c) = c.
Proof.
  unfold slice, slice_index.
  pose proof (len_nonneg pre). pose proof (len_nonneg c).
  pose proof (len_nonneg tail).
  rewrite !len_app.
  destruct (len pre <? 0) eqn:E1; [apply Z.ltb_lt in E1; lia|].
  destruct (len pre + len c <? 0) eqn:E2; [apply Z.ltb_lt in E2; lia|].
  rewrite !Z.min_l by lia.
  replace (len pre + len c - len pre) with (len c) by lia.
  unfold len. rewrite !Nat2Z.id.
  rewrite skipn_app, skipn_all, Nat.sub_diag. simpl.
  rewrite firstn_app, firstn_all, Nat.sub_diag. simpl.
  apply app_nil_r.
Qed.

Lemma slice_suffix (pre c : str) :
  slice (pre ++ c) (len pre) (len pre + len c) = c.
Proof.
  rewrite <- (app_nil_r c) at 1. apply slice_middle.
Qed.

Lemma slice_prefix_of (pre c tail : str) :
  slice (pre ++ c ++ tail) (len pre) (len (pre ++ c)) = c.
Proof. rewrite len_app. apply slice_middle. Qed.

(** ** Names of directory entries *)

Lemma entry_name_inv (n : str) :
  entry_name n = true ->
  n <> [] /\ no_separator n = true /\ n <> lit "." /\ n <> lit "..".
Proof.
  unfold entry_name. rewrite !andb_true_iff, !negb_true_iff.
  intros [[[H1 H2] H3] H4]. repeat split; try assumption.
  - intros ->. discriminate.
  - intros ->. discriminate.
  - intros ->. discriminate.
Qed.

Lemma no_separator_last (n : str) :
  n <> [] -> no_separator n = true ->
  isPosixPathSeparator (path.last_code n) = false.
Proof.
  unfold path.last_code, no_separator. intros Hne H.
  rewrite forallb_forall in H.
  apply negb_true_iff, H.
  destruct (exists_last Hne) as (a & c & ->).
  rewrite last_last. apply in_or_app. right. left. reflexivity.
Qed.

Lemma last_code_app (x n : str) :
  n <> [] -> path.last_code (x ++ n) = path.last_code n.
Proof.
  unfold path.last_code. intros Hne.
  destruct (exists_last Hne) as (a & c & ->).
  rewrite app_assoc, !last_last. reflexivity.
Qed.

(** ** normalizeString *)

Section Normalize.

Variable p : str.
Variable allowAboveRoot : bool.

Lemma normalize_loop_app (a b : str) (i : Z) (st : path.nstate) :
  path.normalize_loop p allowAboveRoot i (a ++ b) st
  = path.normalize_loop p allowAboveRoot (i + len a) b
      (path.normalize_loop p allowAboveRoot i a st).
Proof.
  revert i st; induction a as [|c a IH]; intros i st; simpl.
  - rewrite len_nil, Z.add_0_r. reflexivity.
  - rewrite IH, len_cons. f_equal. lia.
Qed.

(** Every separator leaves [lastSlash] on its index and [dots] at 0. *)
Lemma normalize_step_separator (i : Z) (st : path.nstate) :
  path.lastSlash (path.normalize_step p allowAboveRoot i CHAR_FORWARD_SLASH st) = i
  /\ path.dots (path.normalize_step p allowAboveRoot i CHAR_FORWARD_SLASH st) = 0.
Proof.
  unfold path.normalize_step, path.above_root, path.at_slash.
  change (isPosixPathSeparator CHAR_FORWARD_SLASH) with true. cbv iota.
  repeat match goal with
         | |- context [if ?b then _ else _] => destruct b
         end; simpl; auto.
Qed.

(** A separator right after a separator changes nothing else. *)
Lemma normalize_step_empty_segment (i : Z) (st : path.nstate) :
  path.lastSlash st = i - 1 ->
  path.normalize_step p allowAboveRoot i CHAR_FORWARD_SLASH st
  = path.at_slash (path.res st) (path.lastSegmentLength st) i.
Proof.
  intros H. unfold path.normalize_step.
  change (isPosixPathSeparator CHAR_FORWARD_SLASH) with true. cbv iota.
  rewrite H, Z.eqb_refl. reflexivity.
Qed.

Lemma normalize_loop_segment_chars (cs : str) (i : Z) (st : path.nstate) :
  no_separator cs = true ->
  path.normalize_loop p allowAboveRoot i cs st
  = path.mkNState (path.res st) (path.lastSegmentLength st)
      (path.lastSlash st) (scan_dots cs (path.dots st)).
Proof.
  revert i st; induction cs as [|c cs IH]; intros i st H; simpl in *.
  - destruct st; reflexivity.
  - apply andb_true_iff in H. destruct H as [Hc Hcs].
    apply negb_true_iff in Hc.
    rewrite IH by assumption.
    unfold path.normalize_step. rewrite Hc.
    destruct (is_dot c && negb (path.dots st =? -1)); reflexivity.
Qed.

Lemma scan_dots_minus_one (cs : str) : scan_dots cs (-1) = -1.
Proof.
  induction cs as [|c cs IH]; simpl; [reflexivity|].
  rewrite andb_false_r. assumption.
Qed.

Lemma scan_dots_count (cs : str) (d : Z) :
  0 <= d ->
  scan_dots cs d = if forallb is_dot cs then d + len cs else -1.
Proof.
  revert d; induction cs as [|c cs IH]; intros d Hd; simpl.
  - rewrite len_nil. lia.
  - destruct (d =? -1) eqn:E; [apply Z.eqb_eq in E; lia|].
    destruct (is_dot c); simpl.
    + rewrite IH by lia. rewrite len_cons.
      destruct (forallb is_dot cs); [lia | reflexivity].
    + apply scan_dots_minus_one.
Qed.

(** The dots of an entry name never count to 1 or 2. *)
Lemma scan_dots_entry_name (n : str) :
  entry_name n = true ->
  (scan_dots n 0 =? 1) = false /\ (scan_dots n 0 =? 2) = false
  /\ 0 < len n.
Proof.
  intros H. apply entry_name_inv in H. destruct H as (Hne & _ & H1 & H2).
  rewrite scan_dots_count by lia.
  assert (Hlen : 0 < len n).
  { destruct n; [congruence|]. rewrite len_cons. pose proof (len_nonneg n). lia. }
  destruct (forallb is_dot n) eqn:E; [|repeat split; auto].
  destruct n as [|a [|b [|c n]]]; [congruence| | |].
  - simpl in E. rewrite andb_true_r in E.
    apply Ascii.eqb_eq in E. subst a. exfalso. apply H1. reflexivity.
  - simpl in E. rewrite andb_true_r in E. apply andb_true_iff in E.
    destruct E as [Ea Eb]. apply Ascii.eqb_eq in Ea, Eb. subst a b.
    exfalso. apply H2. reflexivity.
  - rewrite !len_cons. pose proof (len_nonneg n).
    repeat split; try lia; apply Z.eqb_neq; lia.
Qed.

(** An entry name and the separator after it: the name is appended to
    [res]. *)
Lemma normalize_loop_segment (pre c tail : str) (st : path.nstate) :
  p = pre ++ c ++ tail ->
  entry_name c = true ->
  path.lastSlash st = len pre - 1 ->
  path.dots st = 0 ->
  path.normalize_step p allowAboveRoot (len pre + len c) CHAR_FORWARD_SLASH
    (path.normalize_loop p allowAboveRoot (len pre) c st)
  = path.at_slash (push_segment (path.res st) c) (len c) (len pre + len c).
Proof.
  intros Hp Hc Hls Hd.
  destruct (scan_dots_entry_name c Hc) as (H1 & H2 & Hlen).
  apply entry_name_inv in Hc. destruct Hc as (_ & Hsep & _ & _).
  rewrite normalize_loop_segment_chars by assumption.
  unfold path.normalize_step. simpl.
  change (isPosixPathSeparator CHAR_FORWARD_SLASH) with true. cbv iota.
  rewrite Hd, H1, H2, Hls.
  replace (len pre - 1 =? len pre + len c - 1) with false
    by (symmetry; apply Z.eqb_neq; lia).
  simpl.
  replace (len pre - 1 + 1) with (len pre) by lia.
  rewrite Hp, slice_middle.
  unfold push_segment. f_equal. lia.
Qed.

End Normalize.

(** When the path does not end with a separator, the last iteration of
    [normalizeString] is one more step of the loop, on a separator. *)
Lemma normalizeString_last_step (p : str) (allowAboveRoot : bool) :
  isPosixPathSeparator (path.last_code p) = false ->
  path.normalizeString p allowAboveRoot
  = path.res (path.normalize_loop p allowAboveRoot 0 (p ++ [path.sep])
                path.nstate_init).
Proof.
  intros H. unfold path.normalizeString. rewrite H.
  rewrite normalize_loop_app. reflexivity.
Qed.

(** After a prefix that is empty or ends with a separator the loop is
    at the start of a segment. *)
Lemma normalize_loop_at_segment_start (p : str) (allowAboveRoot : bool)
    (x : str) :
  ends_directory x ->
  let st := path.normalize_loop p allowAboveRoot 0 x path.nstate_init in
  path.lastSlash st = len x - 1 /\ path.dots st = 0.
Proof.
  intros [->|(y & ->)]; simpl.
  - split; reflexivity.
  - rewrite normalize_loop_app. simpl.
    rewrite len_app, len_cons, len_nil.
    replace (len y + (1 + 0) - 1) with (0 + len y) by lia.
    apply normalize_step_separator.
Qed.

(** [path.normalize] keeps a last segment that is an entry name: the
    result is that name, after nothing or after a separator. *)
Lemma normalize_entry_name (x n : str) :
  ends_directory x ->
  entry_name n = true ->
  exists x', path.normalize (x ++ n) = x' ++ n /\ ends_directory x'.
Proof.
  intros Hx Hn.
  pose proof (entry_name_inv n Hn) as (Hne & Hsep & _ & _).
  assert (Hlen : 0 < len n).
  { destruct n; [congruence|]. rewrite len_cons. pose proof (len_nonneg n). lia. }
  assert (Hlast : isPosixPathSeparator (path.last_code (x ++ n)) = false).
  { rewrite last_code_app by assumption. apply no_separator_last; assumption. }
  unfold path.normalize.
  replace (len (x ++ n) =? 0) with false
    by (symmetry; apply Z.eqb_neq; rewrite len_app; pose proof (len_nonneg x); lia).
  rewrite Hlast.
  set (aar := negb (path.isAbsolute (x ++ n))).
  assert (Hq : path.normalizeString (x ++ n) aar
               = push_segment
                   (path.res (path.normalize_loop (x ++ n) aar 0 x
                                path.nstate_init)) n).
  { rewrite normalizeString_last_step by assumption.
    rewrite <- app_assoc, normalize_loop_app, Z.add_0_l.
    rewrite normalize_loop_app. simpl path.normalize_loop.
    destruct (normalize_loop_at_segment_start (x ++ n) aar x Hx) as [Hls Hd].
    rewrite (normalize_loop_segment (x ++ n) aar x n []);
      [reflexivity | rewrite app_nil_r; reflexivity | assumption..]. }
  rewrite Hq.
  set (r := path.res (path.normalize_loop (x ++ n) aar 0 x path.nstate_init)).
  unfold push_segment.
  destruct (0 <? len r) eqn:Er.
  - replace (len (r ++ path.sep :: n) =? 0) with false
      by (symmetry; apply Z.eqb_neq; rewrite len_app, len_cons;
          pose proof (len_nonneg r); lia).
    destruct (path.isAbsolute (x ++ n)).
    + exists ((path.sep :: r) ++ [path.sep]). split.
      * simpl. rewrite <- app_assoc. reflexivity.
      * right. eexists; reflexivity.
    + exists (r ++ [path.sep]). split.
      * rewrite <- app_assoc. reflexivity.
      * right. eexists; reflexivity.
  - replace (len n =? 0) with false by (symmetry; apply Z.eqb_neq; lia).
    destruct (path.isAbsolute (x ++ n)).
    + exists [path.sep]. split; [reflexivity|]. right. exists []. reflexivity.
    + exists []. split; [reflexivity|]. left. reflexivity.
Qed.

(** The path that the metadata builder queries for an entry name ends
    with that name as its last component. *)
Lemma join_entry_name (d n : str) :
  entry_name n = true ->
  exists x, path.join [d; n] = x ++ n /\ ends_directory x.
Proof.
  intros Hn.
  pose proof (entry_name_inv n Hn) as (Hne & _).
  assert (Hlen : (0 <? len n) = true).
  { apply Z.ltb_lt. destruct n; [congruence|]. rewrite len_cons.
    pose proof (len_nonneg n). lia. }
  unfold path.join. simpl. rewrite Hlen.
  destruct (0 <? len d).
  - replace (d ++ path.sep :: n) with ((d ++ [path.sep]) ++ n)
      by (rewrite <- app_assoc; reflexivity).
    apply normalize_entry_name; [right; eexists; reflexivity | assumption].
  - apply (normalize_entry_name [] n); [left; reflexivity | assumption].
Qed.

(** ** path.parse on a path that ends with an entry name *)

Lemma split_last_dot_none (n : str) :
  split_last_dot n = None -> no_dot n = true.
Proof.
  induction n as [|c n IH]; simpl; [reflexivity|].
  destruct (split_last_dot n) as [[a b]|]; [discriminate|].
  destruct (is_dot c); [discriminate|]. intros _. simpl. auto.
Qed.

Lemma split_last_dot_some (n a b : str) :
  split_last_dot n = Some (a, b) ->
  n = a ++ CHAR_DOT :: b /\ no_dot b = true.
Proof.
  revert a b; induction n as [|c n IH]; simpl; intros a b; [discriminate|].
  destruct (split_last_dot n) as [[a' b']|] eqn:E.
  - intros H. injection H as <- <-.
    destruct (IH a' b' eq_refl) as [-> Hb]. split; [reflexivity | assumption].
  - destruct (is_dot c) eqn:Ec; [|discriminate].
    intros H. injection H as <- <-.
    apply Ascii.eqb_eq in Ec. subst c.
    split; [reflexivity | apply split_last_dot_none; assumption].
Qed.

Lemma parse_loop_chars (cs rest : str) (i : Z) (st : path.pstate) :
  no_separator cs = true ->
  path.parse_loop (cs ++ rest) i st
  = path.parse_loop rest (i - len cs) (parse_chars cs i st).
Proof.
  revert i st; induction cs as [|c cs IH]; intros i st H; simpl in *.
  - rewrite len_nil, Z.sub_0_r. reflexivity.
  - apply andb_true_iff in H. destruct H as [Hc Hcs].
    apply negb_true_iff in Hc. rewrite Hc, IH by assumption.
    rewrite len_cons. f_equal. lia.
Qed.

Lemma parse_chars_app (a b : str) (i : Z) (st : path.pstate) :
  parse_chars (a ++ b) i st = parse_chars b (i - len a) (parse_chars a i st).
Proof.
  revert i st; induction a as [|c a IH]; intros i st; simpl.
  - rewrite len_nil, Z.sub_0_r. reflexivity.
  - rewrite IH, len_cons. f_equal. lia.
Qed.

Lemma no_separator_rev (n : str) :
  no_separator n = true -> no_separator (rev n) = true.
Proof.
  unfold no_separator. rewrite !forallb_forall.
  intros H c Hc. apply H, in_rev. assumption.
Qed.

Lemma no_separator_app (a b : str) :
  no_separator (a ++ b) = no_separator a && no_separator b.
Proof. apply forallb_app. Qed.

Lemma no_dot_rev (n : str) : no_dot n = true -> no_dot (rev n) = true.
Proof.
  unfold no_dot. rewrite !forallb_forall.
  intros H c Hc. apply H, in_rev. assumption.
Qed.

(** Before the first dot is met, the loop only marks the end of the
    last component. *)
Lemma parse_chars_no_dot (cs : str) (i e : Z) (sp pds : Z) :
  no_dot cs = true -> cs <> [] -> 0 <= i ->
  parse_chars cs i (path.mkPState (-1) sp (-1) true pds)
  = path.mkPState (-1) sp (i + 1) false pds.
Proof.
  intros Hd Hne Hi.
  assert (Hmarked : forall cs j, no_dot cs = true ->
            parse_chars cs j (path.mkPState (-1) sp (i + 1) false pds)
            = path.mkPState (-1) sp (i + 1) false pds).
  { clear cs Hd Hne. induction cs as [|c cs IH]; intros j H; simpl in *;
      [reflexivity|].
    apply andb_true_iff in H. destruct H as [Hc Hcs].
    apply negb_true_iff in Hc.
    unfold path.parse_char. simpl.
    replace (i + 1 =? -1) with false by (symmetry; apply Z.eqb_neq; lia).
    rewrite Hc. simpl. apply IH; assumption. }
  destruct cs as [|c cs]; [congruence|]. simpl in *.
  apply andb_true_iff in Hd. destruct Hd as [Hc Hcs].
  apply negb_true_iff in Hc.
  unfold path.parse_char at 1. simpl. rewrite Hc. simpl.
  apply Hmarked; assumption.
Qed.

(** After the first dot is met, the loop only updates [preDotState],
    on every code unit: 1 on a dot and [-1] on any other. *)
Lemma parse_char_after_dot (i : Z) (c : ascii) (sd sp e : Z) (ms : bool)
    (pds : Z) :
  sd <> -1 -> e <> -1 ->
  path.parse_char i c (path.mkPState sd sp e ms pds)
  = path.mkPState sd sp e ms (if is_dot c then 1 else -1).
Proof.
  intros Hsd He. unfold path.parse_char. simpl.
  replace (e =? -1) with false by (symmetry; apply Z.eqb_neq; assumption).
  simpl.
  replace (sd =? -1) with false by (symmetry; apply Z.eqb_neq; assumption).
  simpl.
  destruct (is_dot c); [|reflexivity].
  destruct (pds =? 1) eqn:E; simpl; [|reflexivity].
  apply Z.eqb_eq in E. subst pds. reflexivity.
Qed.

Lemma parse_chars_after_dot (cs : str) (i : Z) (sd sp e : Z) (ms : bool)
    (pds : Z) :
  sd <> -1 -> e <> -1 ->
  exists pds',
    parse_chars cs i (path.mkPState sd sp e ms pds)
    = path.mkPState sd sp e ms pds'.
Proof.
  intros Hsd He. revert i pds.
  induction cs as [|c cs IH]; intros i pds; simpl.
  - eexists; reflexivity.
  - rewrite parse_char_after_dot by assumption. apply IH.
Qed.

(** The code units before the last dot of the name, scanned from the
    dot backwards: the first one of the name decides. *)
Lemma parse_chars_before_dot (a : str) (i : Z) (sd sp e : Z) (ms : bool) :
  sd <> -1 -> e <> -1 ->
  parse_chars (rev a) i (path.mkPState sd sp e ms 0)
  = path.mkPState sd sp e ms
      (match a with
       | [] => 0
       | c :: _ => if is_dot c then 1 else -1
       end).
Proof.
  intros Hsd He. destruct a as [|c a]; [reflexivity|].
  simpl rev. rewrite parse_chars_app. simpl.
  destruct (parse_chars_after_dot (rev a) i sd sp e ms 0 Hsd He) as (pds' & ->).
  apply parse_char_after_dot; assumption.
Qed.

Lemma parse_chars_name (n : str) (o sp : Z) :
  n <> [] -> 0 <= o ->
  parse_chars (rev n) (o + len n - 1) (path.mkPState (-1) sp (-1) true 0)
  = parsed_name n o sp.
Proof.
  intros Hne Ho. unfold parsed_name.
  assert (Hlen : 0 < len n).
  { destruct n; [congruence|]. rewrite len_cons. pose proof (len_nonneg n). lia. }
  destruct (split_last_dot n) as [[a b]|] eqn:E.
  - apply split_last_dot_some in E. destruct E as [-> Hb].
    pose proof (len_nonneg a). pose proof (len_nonneg b).
    rewrite rev_app_distr. simpl rev. rewrite <- app_assoc. simpl app.
    rewrite parse_chars_app, len_rev.
    rewrite !len_app, !len_cons in *.
    replace (o + (len a + (1 + len b)) - 1 - len b) with (o + len a) by lia.
    assert (Hb' :
      parse_chars (rev b) (o + (len a + (1 + len b)) - 1)
        (path.mkPState (-1) sp (-1) true 0)
      = if len b =? 0 then path.mkPState (-1) sp (-1) true 0
        else path.mkPState (-1) sp (o + (len a + (1 + len b))) false 0).
    { destruct (len b =? 0) eqn:Eb.
      - apply Z.eqb_eq, len_zero in Eb. subst b. reflexivity.
      - apply Z.eqb_neq in Eb.
        rewrite parse_chars_no_dot;
          [f_equal; lia | exact 0 | apply no_dot_rev; assumption | | lia].
        intros Hr. apply (f_equal len) in Hr. rewrite len_rev in Hr.
        apply Eb. exact Hr. }
    rewrite Hb'. cbn [parse_chars].
    assert (Hdot :
      path.parse_char (o + len a) CHAR_DOT
        (if len b =? 0 then path.mkPState (-1) sp (-1) true 0
         else path.mkPState (-1) sp (o + (len a + (1 + len b))) false 0)
      = path.mkPState (o + len a) sp (o + (len a + (1 + len b))) false 0).
    { unfold path.parse_char.
      change (is_dot CHAR_DOT) with true. cbv iota.
      destruct (len b =? 0) eqn:Eb.
      - apply Z.eqb_eq in Eb. rewrite Eb. simpl. f_equal. lia.
      - cbn [path.end_].
        replace (o + (len a + (1 + len b)) =? -1) with false
          by (symmetry; apply Z.eqb_neq; lia).
        reflexivity. }
    rewrite Hdot.
    apply parse_chars_before_dot; lia.
  - apply split_last_dot_none in E.
    rewrite parse_chars_no_dot;
      [f_equal; lia | exact 0 | apply no_dot_rev; assumption | | lia].
    intros Hr. apply (f_equal len) in Hr. rewrite len_rev in Hr.
    change (len []) with 0 in Hr. lia.
Qed.

Lemma parsed_name_start_part (n : str) (o sp sp' : Z) :
  path.matchedSlash (parsed_name n o sp) = false
  /\ path.mkPState (path.startDot (parsed_name n o sp)) sp'
       (path.end_ (parsed_name n o sp)) false
       (path.preDotState (parsed_name n o sp))
     = parsed_name n o sp'.
Proof.
  unfold parsed_name. destruct (split_last_dot n) as [[a b]|]; simpl; auto.
Qed.

Lemma entry_name_not_absolute (n : str) :
  n <> [] -> no_separator n = true -> path.isAbsolute n = false.
Proof.
  destruct n as [|c n]; [congruence|]. simpl. intros _ H.
  apply andb_true_iff in H. destruct H as [H _].
  apply negb_true_iff in H. exact H.
Qed.

(** The loop of [path.parse] on a path that ends with an entry name:
    it scans the name and stops at the separator before it, if there
    is one after the first code unit of the path. *)
Lemma parse_loop_entry_name (x n : str) :
  ends_directory x ->
  n <> [] -> no_separator n = true ->
  let absolute := path.isAbsolute (x ++ n) in
  let start := if absolute then 1 else 0 in
  exists sp,
    path.parse_loop (rev (skipn (Z.to_nat start) (x ++ n)))
      (len (x ++ n) - 1) path.pstate_init
    = parsed_name n (len x) sp
    /\ (if (sp =? 0) && absolute then 1 else sp) = len x
    /\ (sp = len x \/ (sp = 0 /\ len x = 1)).
Proof.
  intros Hx Hne Hsep. cbv zeta.
  pose proof (no_separator_rev n Hsep) as Hrsep.
  destruct Hx as [->|([|c y] & ->)].
  - (* the name alone *)
    simpl app. rewrite (entry_name_not_absolute n Hne Hsep).
    exists 0. simpl skipn.
    rewrite <- (app_nil_r (rev n)), parse_loop_chars by assumption.
    cbn [path.parse_loop]. unfold path.pstate_init.
    replace (len n - 1) with (0 + len n - 1) by lia.
    rewrite (parse_chars_name n 0 0 Hne) by lia.
    change (len []) with 0. repeat split; auto.
  - (* the name under the root *)
    simpl app. simpl path.isAbsolute.
    change (isPosixPathSeparator path.sep) with true. cbv iota.
    exists 0. simpl skipn.
    rewrite <- (app_nil_r (rev n)), parse_loop_chars by assumption.
    cbn [path.parse_loop]. unfold path.pstate_init.
    rewrite len_cons. change (len [path.sep]) with 1.
    rewrite (parse_chars_name n 1 0 Hne) by lia.
    repeat split; auto.
  - (* the name under a directory *)
    exists (len ((c :: y) ++ [path.sep])).
    assert (Ho : 2 <= len ((c :: y) ++ [path.sep])).
    { rewrite len_app, !len_cons, len_nil. pose proof (len_nonneg y). lia. }
    assert (Hrev : exists rest,
              rev (skipn (Z.to_nat (if path.isAbsolute (((c :: y) ++ [path.sep]) ++ n)
                                    then 1 else 0))
                     (((c :: y) ++ [path.sep]) ++ n))
              = rev n ++ path.sep :: rest).
    { destruct (path.isAbsolute (((c :: y) ++ [path.sep]) ++ n)).
      - exists (rev y). change (Z.to_nat 1) with 1%nat. cbn [app skipn].
        rewrite !rev_app_distr. reflexivity.
      - exists (rev (c :: y)). change (Z.to_nat 0) with 0%nat. cbn [skipn].
        rewrite !rev_app_distr. reflexivity. }
    destruct Hrev as (rest & ->).
    rewrite parse_loop_chars by assumption.
    unfold path.pstate_init.
    rewrite len_rev, (len_app _ n).
    set (o := len ((c :: y) ++ [path.sep])) in *.
    rewrite (parse_chars_name n o 0 Hne) by lia.
    cbn [path.parse_loop].
    change (isPosixPathSeparator path.sep) with true. cbv iota.
    destruct (parsed_name_start_part n o 0 (o + len n - 1 - len n + 1))
      as [Hms Hsp].
    rewrite Hms. simpl negb. cbv iota. rewrite Hsp.
    replace (o + len n - 1 - len n + 1) with o by lia.
    split; [reflexivity|]. split; [|left; reflexivity].
    replace (o =? 0) with false by (symmetry; apply Z.eqb_neq; lia).
    reflexivity.
Qed.

(** The base, the extension and the stem that [path.parse] finds on a
    path whose last component is an entry name: the extension starts
    at the last dot of the name, unless that dot is its first code
    unit. *)
Lemma parse_entry_name (x n : str) :
  ends_directory x ->
  entry_name n = true ->
  path.base (path.parse (x ++ n)) = n
  /\ path.ext (path.parse (x ++ n))
     = match split_last_dot n with
       | Some (_ :: _, b) => CHAR_DOT :: b
       | _ => []
       end
  /\ path.name (path.parse (x ++ n))
     = match split_last_dot n with
       | Some (c :: a, _) => c :: a
       | _ => n
       end.
Proof.
  intros Hx Hn.
  pose proof (entry_name_inv n Hn) as (Hne & Hsep & _ & Hdd).
  assert (Hlen : 0 < len n).
  { destruct n; [congruence|]. rewrite len_cons. pose proof (len_nonneg n). lia. }
  pose proof (len_nonneg x) as Hxlen.
  destruct (parse_loop_entry_name x n Hx Hne Hsep) as (sp & Hloop & Hstart & Hsp).
  unfold path.parse.
  replace (len (x ++ n) =? 0) with false
    by (symmetry; apply Z.eqb_neq; rewrite len_app; lia).
  rewrite Hloop.
  assert (Hend : path.end_ (parsed_name n (len x) sp) = len x + len n).
  { unfold parsed_name. destruct (split_last_dot n) as [[a b]|]; reflexivity. }
  assert (Hsp' : path.startPart (parsed_name n (len x) sp) = sp).
  { unfold parsed_name. destruct (split_last_dot n) as [[a b]|]; reflexivity. }
  rewrite Hend, Hsp', Hstart.
  replace (len x + len n =? -1) with false by (symmetry; apply Z.eqb_neq; lia).
  simpl negb. cbv iota.
  unfold parsed_name.
  destruct (split_last_dot n) as [[a b]|] eqn:E; cbn [path.startDot path.preDotState].
  - apply split_last_dot_some in E. destruct E as [En Hb].
    pose proof (len_nonneg a) as Ha. pose proof (len_nonneg b) as Hblen.
    replace (len x + len a =? -1) with false by (symmetry; apply Z.eqb_neq; lia).
    destruct a as [|c a].
    + simpl. rewrite slice_suffix. auto.
    + assert (Hcond :
        ((if is_dot c then 1 else -1) =? 0)
        || (((if is_dot c then 1 else -1) =? 1)
            && (len x + len (c :: a) =? len x + len n - 1)
            && (len x + len (c :: a) =? sp + 1)) = false).
      { destruct (is_dot c) eqn:Ec; [|reflexivity].
        simpl.
        destruct (len x + len (c :: a) =? len x + len n - 1) eqn:E1;
          [|reflexivity].
        destruct (len x + len (c :: a) =? sp + 1) eqn:E2; [|reflexivity].
        exfalso. apply Z.eqb_eq in E1, E2.
        rewrite En, len_app, !len_cons in E1. rewrite len_cons in E2.
        pose proof (len_nonneg a).
        assert (len b = 0) by lia. assert (len a = 0) by lia.
        apply Ascii.eqb_eq in Ec. subst c.
        rewrite (len_zero a), (len_zero b) in En by assumption.
        apply Hdd. exact En. }
      simpl orb. rewrite Hcond. cbn [path.base path.ext path.name].
      split; [apply slice_suffix|]. split.
      * replace (len x + len n)
          with (len (x ++ c :: a) + len (CHAR_DOT :: b))
          by (rewrite En, !len_app; lia).
        replace (len x + len (c :: a)) with (len (x ++ c :: a))
          by (rewrite len_app; lia).
        replace (x ++ n) with ((x ++ c :: a) ++ CHAR_DOT :: b)
          by (rewrite En, <- app_assoc; reflexivity).
        apply slice_suffix.
      * rewrite En at 1. apply slice_middle.
  - simpl. rewrite slice_suffix. auto.
Qed.

(** ** The fields of a metadata record *)

Lemma getFileMetadataSync_outcome (fs : FileSystem) (d : str)
    (b : option str) :
  outcome (getFileMetadataSync fs d b)
  = match fs_lstat fs (path.join [d; default_empty b]) with
    | Normal stats =>
        Normal (metadata_of (path.join [d; default_empty b]) stats)
    | Throw e => Throw e
    end.
Proof.
  unfold getFileMetadataSync, lstatSync, bind, ret, outcome.
  destruct (fs_lstat fs (path.join [d; default_empty b])); reflexivity.
Qed.

Lemma getFileMetadataSync_success (fs : FileSystem) (d : str)
    (b : option str) (m : FileMetadata) :
  outcome (getFileMetadataSync fs d b) = Normal m ->
  exists stats,
    fs_lstat fs (path.join [d; default_empty b]) = Normal stats
    /\ m = metadata_of (path.join [d; default_empty b]) stats.
Proof.
  rewrite getFileMetadataSync_outcome.
  destruct (fs_lstat fs (path.join [d; default_empty b])) as [s|e];
    [|discriminate].
  intros H. injection H as <-. exists s. auto.
Qed.

Lemma getFileMetadataAsync_outcome (fs : FileSystem) (d : str)
    (b : option str) :
  getFileMetadataAsync fs d b
  = promisify (outcome (getFileMetadataSync fs d b)).
Proof.
  rewrite getFileMetadataSync_outcome.
  unfold getFileMetadataAsync, lstatAsync, then_, promisify, metadata_of.
  destruct (fs_lstat fs (path.join [d; default_empty b])); reflexivity.
Qed.

(** The record of an entry name [n] in any directory. *)
Lemma metadata_entry_name (fs : FileSystem) (d n : str) (m : FileMetadata) :
  entry_name n = true ->
  outcome (getFileMetadataSync fs d (Some n)) = Normal m ->
  basename m = n
  /\ extension m = match split_last_dot n with
                   | Some (_ :: _, b) => b
                   | _ => []
                   end
  /\ name m = match split_last_dot n with
              | Some (c :: a, _) => c :: a
              | _ => n
              end
  /\ isHidden m = startsWith_dot n.
Proof.
  intros Hn Hm.
  apply getFileMetadataSync_success in Hm. destruct Hm as (s & _ & ->).
  simpl default_empty.
  destruct (join_entry_name d n Hn) as (x & -> & Hx).
  destruct (parse_entry_name x n Hx Hn) as (Hbase & Hext & Hname).
  unfold metadata_of. cbn [basename extension name isHidden].
  rewrite Hbase, Hext, Hname.
  split; [reflexivity|]. split; [|split; reflexivity].
  destruct (split_last_dot n) as [[[|c a] b]|]; reflexivity.
Qed.

(** C3, as the code has it. For an entry name [n] (one component, not
    empty, not [.] or [..]) in any directory, both builders give a
    record whose [extension] is the part of [n] after its last dot
    when that dot is not the first code unit of [n], and is empty
    otherwise: for a name without a dot and for a name whose only dot
    leads it. In the second case [name] is the whole of [n]. *)
Theorem getFileMetadata_extension :
  forall (fs : FileSystem) (d n : str) (stats : Stats),
    entry_name n = true ->
    fs_lstat fs (path.join [d; n]) = Normal stats ->
    exists m,
      outcome (getFileMetadataSync fs d (Some n)) = Normal m
      /\ getFileMetadataAsync fs d (Some n) = Fulfilled m
      /\ extension m = match split_last_dot n with
                       | Some (_ :: _, _) => substring_after_last_dot n
                       | _ => []
                       end
      /\ name m = match split_last_dot n with
                  | Some (c :: a, _) => c :: a
                  | _ => n
                  end.
Proof.
  intros fs d n stats Hn Hs.
  exists (metadata_of (path.join [d; n]) stats).
  assert (Hm : outcome (getFileMetadataSync fs d (Some n))
               = Normal (metadata_of (path.join [d; n]) stats)).
  { rewrite getFileMetadataSync_outcome. simpl default_empty.
    rewrite Hs. reflexivity. }
  split; [exact Hm|].
  split; [rewrite getFileMetadataAsync_outcome, Hm; reflexivity|].
  destruct (metadata_entry_name fs d n _ Hn Hm) as (_ & Hext & Hname & _).
  rewrite Hext, Hname. unfold substring_after_last_dot.
  destruct (split_last_dot n) as [[[|c a] b]|]; auto.
Qed.

Lemma getFileMetadata_extension_witness :
  entry_name (lit "notes.txt") = true
  /\ fs_lstat fs_tmp_x (path.join [lit "/tmp/x"; lit "notes.txt"])
     = Normal (mkStats false 3)
  /\ exists m,
       outcome (getFileMetadataSync fs_tmp_x (lit "/tmp/x")
                  (Some (lit "notes.txt"))) = Normal m
       /\ getFileMetadataAsync fs_tmp_x (lit "/tmp/x")
            (Some (lit "notes.txt")) = Fulfilled m
       /\ extension m
          = match split_last_dot (lit "notes.txt") with
            | Some (_ :: _, _) => substring_after_last_dot (lit "notes.txt")
            | _ => []
            end
       /\ name m = match split_last_dot (lit "notes.txt") with
                   | Some (c :: a, _) => c :: a
                   | _ => lit "notes.txt"
                   end.
Proof.
  split; [reflexivity|]. split; [reflexivity|].
  apply (getFileMetadata_extension fs_tmp_x (lit "/tmp/x") (lit "notes.txt")
           (mkStats false 3)); reflexivity.
Defined.

(** C3 fails as stated. For the name [.gitignore] the part after the
    last dot is [gitignore], but the record has an empty [extension]
    and the whole name as [name]; and with the empty name, which has
    no dot, the record of /srv/app.d has the [extension] [d]. *)
Lemma getFileMetadata_extension_counterexample :
  (exists m,
     outcome (getFileMetadataSync fs_all_dirs (lit "/repo")
                (Some (lit ".gitignore"))) = Normal m
     /\ substring_after_last_dot (lit ".gitignore") = lit "gitignore"
     /\ extension m = []
     /\ name m = lit ".gitignore"
     /\ extension m <> substring_after_last_dot (lit ".gitignore")
     /\ ~ (extension m = lit "gitignore" /\ name m = []))
  /\ (exists m,
        outcome (getFileMetadataSync fs_all_dirs (lit "/srv/app.d")
                   (Some [])) = Normal m
        /\ split_last_dot [] = None
        /\ extension m = lit "d"
        /\ extension m <> []).
Proof.
  split.
  - eexists. split; [reflexivity|]. vm_compute.
    repeat split; try reflexivity; try discriminate.
    intros [H _]. discriminate.
  - eexists. split; [reflexivity|]. vm_compute.
    repeat split; try reflexivity; discriminate.
Qed.

(** C4, as the code has it. For an entry name [n] (one component, not
    empty, not [.] or [..]) in any directory, when the status query
    succeeds, both builders give a record whose [isHidden] tells
    whether [n] starts with a dot. *)
Theorem getFileMetadata_isHidden :
  forall (fs : FileSystem) (d n : str) (stats : Stats),
    entry_name n = true ->
    fs_lstat fs (path.join [d; n]) = Normal stats ->
    exists m,
      outcome (getFileMetadataSync fs d (Some n)) = Normal m
      /\ getFileMetadataAsync fs d (Some n) = Fulfilled m
      /\ (isHidden m = true <-> exists rest, n = CHAR_DOT :: rest).
Proof.
  intros fs d n stats Hn Hs.
  exists (metadata_of (path.join [d; n]) stats).
  assert (Hm : outcome (getFileMetadataSync fs d (Some n))
               = Normal (metadata_of (path.join [d; n]) stats)).
  { rewrite getFileMetadataSync_outcome. simpl default_empty.
    rewrite Hs. reflexivity. }
  split; [exact Hm|].
  split; [rewrite getFileMetadataAsync_outcome, Hm; reflexivity|].
  destruct (metadata_entry_name fs d n _ Hn Hm) as (_ & _ & _ & ->).
  destruct n as [|c n]; simpl.
  - split; [discriminate | intros (rest & H); discriminate].
  - unfold is_dot. rewrite Ascii.eqb_eq. split.
    + intros ->. eexists; reflexivity.
    + intros (rest & H). injection H as -> _. reflexivity.
Qed.

Lemma getFileMetadata_isHidden_witness :
  entry_name (lit ".hidden") = true
  /\ fs_lstat fs_all_dirs (path.join [lit "/tmp/x"; lit ".hidden"])
     = Normal (mkStats true 4096)
  /\ exists m,
       outcome (getFileMetadataSync fs_all_dirs (lit "/tmp/x")
                  (Some (lit ".hidden"))) = Normal m
       /\ getFileMetadataAsync fs_all_dirs (lit "/tmp/x")
            (Some (lit ".hidden")) = Fulfilled m
       /\ (isHidden m = true
           <-> exists rest, lit ".hidden" = CHAR_DOT :: rest).
Proof.
  split; [reflexivity|]. split; [reflexivity|].
  apply (getFileMetadata_isHidden fs_all_dirs (lit "/tmp/x") (lit ".hidden")
           (mkStats true 4096)); reflexivity.
Defined.

(** C4 fails as stated. With the empty name, which does not start
    with a dot, the record of /home/.config is hidden; and with the
    name [.], which starts with a dot, the record of /home/user is
    not. *)
Lemma getFileMetadata_isHidden_counterexample :
  (exists m,
     outcome (getFileMetadataSync fs_all_dirs (lit "/home/.config")
                (Some [])) = Normal m
     /\ isHidden m = true /\ startsWith_dot [] = false)
  /\ (exists m,
        outcome (getFileMetadataSync fs_all_dirs (lit "/home/user")
                   (Some (lit "."))) = Normal m
        /\ isHidden m = false /\ startsWith_dot (lit ".") = true).
Proof.
  split; eexists; (split; [reflexivity|]); vm_compute; split; reflexivity.
Qed.

(** ** Paths made of entry names *)

Lemma absolute_path_segments (cs : list str) :
  absolute_path cs ++ [path.sep] = path.sep :: segments cs.
Proof.
  induction cs as [|c cs IH]; [reflexivity|].
  unfold absolute_path, segments in *. simpl.
  rewrite <- !app_assoc. rewrite IH. reflexivity.
Qed.

Lemma app_last_prefix {A : Type} (p q r : list A) (a b : A) :
  p ++ [a] = q ++ b :: r -> exists t, p = q ++ t.
Proof.
  intros H.
  assert (Hne : b :: r <> []) by discriminate.
  destruct (exists_last Hne) as (r' & z & Hr). rewrite Hr in H.
  rewrite app_assoc in H. apply app_inj_tail in H. destruct H as [-> _].
  exists r'. reflexivity.
Qed.

Lemma entry_name_len (c : str) : entry_name c = true -> 0 < len c.
Proof.
  intros H. apply entry_name_inv in H. destruct H as (Hne & _).
  destruct c; [congruence|]. rewrite len_cons. pose proof (len_nonneg c). lia.
Qed.

(** The loop of [normalizeString] over a run of entry names, each
    followed by a separator, appends them to [res] one by one. *)
Lemma normalize_loop_segments (p : str) (allowAboveRoot : bool) :
  forall (cs : list str) (pre : str) (st : path.nstate),
    Forall (fun c => entry_name c = true) cs ->
    p ++ [path.sep] = pre ++ segments cs ->
    path.lastSlash st = len pre - 1 ->
    path.dots st = 0 ->
    path.res (path.normalize_loop p allowAboveRoot (len pre) (segments cs) st)
    = fold_left push_segment cs (path.res st).
Proof.
  induction cs as [|c cs IH]; intros pre st Hcs Hp Hls Hd; [reflexivity|].
  inversion Hcs as [|? ? Hc Hcs']; subst.
  change (segments (c :: cs)) with ((c ++ [path.sep]) ++ segments cs) in *.
  rewrite <- app_assoc in *. simpl app in *.
  destruct (app_last_prefix p (pre ++ c) (segments cs) path.sep path.sep)
    as (tail & Htail); [rewrite <- app_assoc; exact Hp|].
  rewrite <- app_assoc in Htail.
  rewrite normalize_loop_app. cbn [path.normalize_loop].
  change path.sep with CHAR_FORWARD_SLASH at 1.
  rewrite (normalize_loop_segment p allowAboveRoot pre c tail st Htail Hc Hls Hd).
  replace (len pre + len c + 1) with (len (pre ++ c ++ [path.sep]))
    by (rewrite !len_app, len_cons, len_nil; lia).
  rewrite IH; [reflexivity | assumption | | |].
  - rewrite Hp, <- !app_assoc. reflexivity.
  - simpl. rewrite !len_app, len_cons, len_nil. lia.
  - reflexivity.
Qed.

Lemma fold_push_segment (cs : list str) (r : str) :
  0 < len r ->
  fold_left push_segment cs r = r ++ absolute_path cs.
Proof.
  revert r; induction cs as [|c cs IH]; intros r Hr; simpl.
  - rewrite app_nil_r. reflexivity.
  - unfold push_segment at 2.
    replace (0 <? len r) with true by (symmetry; apply Z.ltb_lt; assumption).
    rewrite IH.
    + rewrite <- app_assoc. reflexivity.
    + rewrite len_app, len_cons. pose proof (len_nonneg c). lia.
Qed.

Lemma fold_push_segment_nil (c : str) (cs : list str) :
  0 < len c ->
  path.sep :: fold_left push_segment (c :: cs) [] = absolute_path (c :: cs).
Proof.
  intros Hc. simpl. unfold push_segment at 2. simpl.
  rewrite fold_push_segment by assumption. reflexivity.
Qed.

Lemma last_code_absolute_path (s : str) (cs : list str) :
  cs <> [] ->
  Forall (fun c => entry_name c = true) cs ->
  isPosixPathSeparator (path.last_code (s ++ absolute_path cs)) = false.
Proof.
  intros Hne Hcs.
  destruct (exists_last Hne) as (cs' & c & ->).
  apply Forall_app in Hcs. destruct Hcs as [_ Hc].
  inversion Hc as [|? ? Hc' _]; subst.
  apply entry_name_inv in Hc'. destruct Hc' as (Hcne & Hsep & _).
  assert (H : s ++ absolute_path (cs' ++ [c])
              = (s ++ absolute_path cs' ++ [path.sep]) ++ c).
  { unfold absolute_path. rewrite map_app, concat_app. simpl.
    rewrite app_nil_r, <- !app_assoc. reflexivity. }
  rewrite H, (last_code_app _ c Hcne).
  apply no_separator_last; assumption.
Qed.

(** [path.normalize] leaves a path of entry names as it is, and drops
    a second leading separator. *)
Lemma normalize_absolute_path (s : str) (cs : list str) :
  s = [] \/ s = [path.sep] ->
  cs <> [] ->
  Forall (fun c => entry_name c = true) cs ->
  path.normalize (s ++ absolute_path cs) = absolute_path cs.
Proof.
  intros Hs Hne Hcs.
  pose proof (last_code_absolute_path s cs Hne Hcs) as Hlast.
  destruct cs as [|c cs]; [congruence|].
  inversion Hcs as [|? ? Hc Hcs']; subst.
  pose proof (entry_name_len c Hc) as Hclen.
  assert (Habs : path.isAbsolute (s ++ absolute_path (c :: cs)) = true)
    by (destruct Hs as [->| ->]; reflexivity).
  assert (Hlen : (len (s ++ absolute_path (c :: cs)) =? 0) = false).
  { apply Z.eqb_neq. rewrite len_app. unfold absolute_path. simpl.
    rewrite len_cons, len_app. pose proof (len_nonneg s).
    pose proof (len_nonneg (List.concat (List.map (cons path.sep) cs))). lia. }
  assert (Hp : (s ++ absolute_path (c :: cs)) ++ [path.sep]
               = (s ++ [path.sep]) ++ segments (c :: cs)).
  { rewrite <- !app_assoc, absolute_path_segments. reflexivity. }
  assert (Hstart :
    path.normalize_loop (s ++ absolute_path (c :: cs)) false 0
      (s ++ [path.sep]) path.nstate_init
    = path.at_slash [] 0 (len (s ++ [path.sep]) - 1)).
  { destruct Hs as [->| ->]; reflexivity. }
  assert (Hns : path.normalizeString (s ++ absolute_path (c :: cs)) false
                = fold_left push_segment (c :: cs) []).
  { rewrite normalizeString_last_step by assumption.
    rewrite Hp, normalize_loop_app, Z.add_0_l, Hstart.
    rewrite (normalize_loop_segments _ false (c :: cs) (s ++ [path.sep]));
      [reflexivity | assumption | exact Hp | reflexivity | reflexivity]. }
  unfold path.normalize. rewrite Hlen, Habs, Hlast. simpl negb.
  rewrite Hns.
  assert (Hq : path.sep :: fold_left push_segment (c :: cs) []
               = absolute_path (c :: cs))
    by (apply fold_push_segment_nil; assumption).
  destruct (fold_left push_segment (c :: cs) []) as [|q0 q] eqn:Eq.
  - unfold absolute_path in Hq. simpl in Hq. injection Hq as Hq.
    destruct c; [rewrite len_nil in Hclen; lia | discriminate Hq].
  - rewrite len_cons.
    replace (1 + len q =? 0) with false
      by (symmetry; apply Z.eqb_neq; pose proof (len_nonneg q); lia).
    exact Hq.
Qed.

Lemma normalize_root_path (cs : list str) :
  Forall (fun c => entry_name c = true) cs ->
  path.normalize (path.sep :: absolute_path cs) = root_path cs
  /\ path.normalize (root_path cs) = root_path cs.
Proof.
  intros Hcs. destruct cs as [|c cs]; [split; reflexivity|].
  split.
  - apply (normalize_absolute_path [path.sep]); [auto | discriminate | assumption].
  - apply (normalize_absolute_path []); [auto | discriminate | assumption].
Qed.

(** [path.join] of the root and entry names, as [subpaths] calls it. *)
Lemma join_loop_entry_names (cs : list str) (j : str) :
  Forall (fun c => entry_name c = true) cs ->
  path.join_loop cs (Some j) = Some (j ++ absolute_path cs).
Proof.
  revert j; induction cs as [|c cs IH]; intros j Hcs; simpl.
  - rewrite app_nil_r. reflexivity.
  - inversion Hcs as [|? ? Hc Hcs']; subst.
    replace (0 <? len c) with true
      by (symmetry; apply Z.ltb_lt, entry_name_len; assumption).
    rewrite IH by assumption.
    unfold absolute_path. simpl. rewrite <- app_assoc. reflexivity.
Qed.

Lemma join_root_entry_names (cs : list str) :
  Forall (fun c => entry_name c = true) cs ->
  path.join (lit "/" :: cs) = root_path cs.
Proof.
  intros Hcs. unfold path.join. simpl path.join_loop.
  change (0 <? len (lit "/")) with true. cbv iota.
  rewrite join_loop_entry_names by assumption.
  apply normalize_root_path; assumption.
Qed.

Lemma join_root_path (cs : list str) :
  Forall (fun c => entry_name c = true) cs ->
  path.join [root_path cs; []] = root_path cs.
Proof.
  intros Hcs. unfold path.join. simpl path.join_loop.
  assert (H : (0 <? len (root_path cs)) = true).
  { destruct cs as [|c cs]; [reflexivity|].
    unfold root_path, absolute_path. simpl. rewrite len_cons.
    apply Z.ltb_lt.
    pose proof (len_nonneg (c ++ List.concat (List.map (cons path.sep) cs))). lia. }
  rewrite H. change (0 <? len []) with false. cbv iota.
  apply normalize_root_path; assumption.
Qed.

(** ** subpaths *)

(** A map whose calls all return gives their results in order. *)
Lemma map_from_outcome {A B : Type} (iteratee : A -> nat -> io B)
    (f : nat -> B) :
  forall (array : list A) (index : nat),
    (forall j x, nth_error array j = Some x ->
                 outcome (iteratee x (index + j)%nat)
                 = Normal (f (index + j)%nat)) ->
    outcome (lodash.map_from index array iteratee)
    = Normal (List.map f (seq index (List.length array))).
Proof.
  induction array as [|x xs IH]; intros index H; [reflexivity|].
  cbn [lodash.map_from]. rewrite outcome_bind.
  pose proof (H 0%nat x eq_refl) as H0. rewrite Nat.add_0_r in H0.
  rewrite H0, outcome_bind, (IH (S index)).
  - reflexivity.
  - intros j y Hj. rewrite Nat.add_succ_comm. apply (H (S j)). exact Hj.
Qed.

(** A map stops at the first call that throws. *)
Lemma map_from_throw {A B : Type} (iteratee : A -> nat -> io B) (e : error) :
  forall (array : list A) (index : nat) (k : nat) (x : A),
    nth_error array k = Some x ->
    outcome (iteratee x (index + k)%nat) = Throw e ->
    (forall j y, (j < k)%nat -> nth_error array j = Some y ->
                 exists b, outcome (iteratee y (index + j)%nat) = Normal b) ->
    outcome (lodash.map_from index array iteratee) = Throw e.
Proof.
  induction array as [|a xs IH]; intros index k x Hk He Hbefore.
  - destruct k; discriminate.
  - cbn [lodash.map_from]. rewrite outcome_bind.
    destruct k as [|k].
    + simpl in Hk. injection Hk as ->. rewrite Nat.add_0_r in He.
      rewrite He. reflexivity.
    + destruct (Hbefore 0%nat a) as (b & Hb); [lia | reflexivity|].
      rewrite Nat.add_0_r in Hb. rewrite Hb, outcome_bind.
      rewrite (IH (S index) k x); [reflexivity | exact Hk | |].
      * rewrite Nat.add_succ_comm. exact He.
      * intros j y Hj Hy. rewrite Nat.add_succ_comm.
        apply (Hbefore (S j)); [lia | exact Hy].
Qed.

(** The pieces of a split hold no separator. *)
Lemma split_no_separator (s : str) :
  Forall (fun c => no_separator c = true) (split path.sep s).
Proof.
  induction s as [|c s IH]; simpl.
  - constructor; [reflexivity | constructor].
  - destruct (Ascii.eqb c path.sep) eqn:E.
    + constructor; [reflexivity | assumption].
    + destruct (split path.sep s) as [|w ws].
      * constructor; [|constructor]. simpl.
        unfold isPosixPathSeparator. change CHAR_FORWARD_SLASH with path.sep.
        rewrite E. reflexivity.
      * inversion IH as [|? ? Hw Hws]; subst.
        constructor; [|assumption]. simpl.
        unfold isPosixPathSeparator. change CHAR_FORWARD_SLASH with path.sep.
        rewrite E. simpl. exact Hw.
Qed.

(** The list [dirs] of [subpaths] on an absolute path: the root, then
    the components. *)
Lemma subpaths_dirs (s : str) :
  path.isAbsolute s = true ->
  lodash.compact (lodash.update0 (split path.sep s) root_or_slash)
  = lit "/" :: components s.
Proof.
  destruct s as [|c s]; [discriminate|]. simpl path.isAbsolute.
  unfold isPosixPathSeparator. intros H. apply Ascii.eqb_eq in H. subst c.
  unfold components. simpl split.
  change (Ascii.eqb CHAR_FORWARD_SLASH path.sep) with true. cbv iota.
  reflexivity.
Qed.

Lemma components_entry_names (s : str) :
  Forall (fun c => c <> lit "." /\ c <> lit "..") (components s) ->
  Forall (fun c => entry_name c = true) (components s).
Proof.
  unfold components, lodash.compact. intros H.
  rewrite Forall_forall in *. intros c Hc.
  destruct (H c Hc) as [H1 H2].
  apply filter_In in Hc. destruct Hc as [Hin Hlen].
  pose proof (split_no_separator s) as Hsep.
  rewrite Forall_forall in Hsep.
  unfold entry_name. rewrite Hlen, (Hsep c Hin). simpl.
  apply andb_true_iff. split; apply negb_true_iff.
  - destruct (str_eqb c (lit ".")) eqn:E; [|reflexivity].
    apply str_eqb_eq in E. contradiction.
  - destruct (str_eqb c (lit "..")) eqn:E; [|reflexivity].
    apply str_eqb_eq in E. contradiction.
Qed.

Lemma Forall_firstn_entry (P : str -> Prop) (cs : list str) (i : nat) :
  Forall P cs -> Forall P (firstn i cs).
Proof.
  intros H. rewrite Forall_forall in *. intros c Hc.
  apply H. rewrite <- (firstn_skipn i cs). apply in_or_app. left. exact Hc.
Qed.

Lemma subpaths_level (fs : FileSystem) (cs : list str) (i : nat) :
  Forall (fun c => entry_name c = true) cs ->
  outcome (getFileMetadataSync fs
             (path.join (firstn (i + 1) (lit "/" :: cs))) None)
  = match fs_lstat fs (root_path (firstn i cs)) with
    | Normal _ => Normal (level_metadata fs cs i)
    | Throw e => Throw e
    end.
Proof.
  intros Hcs.
  assert (Hi : Forall (fun c => entry_name c = true) (firstn i cs))
    by (apply Forall_firstn_entry; assumption).
  rewrite Nat.add_1_r. cbn [firstn].
  rewrite join_root_entry_names by assumption.
  rewrite getFileMetadataSync_outcome. cbn [default_empty].
  rewrite join_root_path by assumption.
  unfold level_metadata.
  destruct (fs_lstat fs (root_path (firstn i cs))); reflexivity.
Qed.

Lemma subpaths_outcome (fs : FileSystem) (s : str) :
  outcome (subpaths fs (VString s))
  = match outcome
            (let dirs :=
               lodash.compact
                 (lodash.update0 (split path.sep s) root_or_slash) in
             lodash.map dirs (fun dir index =>
               getFileMetadataSync fs
                 (path.join (firstn (index + 1) dirs)) None)) with
    | Normal l => Normal (Some l)
    | Throw e => Throw e
    end.
Proof.
  unfold subpaths. cbn [lodash.isString negb]. cbv zeta.
  rewrite outcome_bind.
  destruct (outcome _); reflexivity.
Qed.

(** C8, as the code has it. For an absolute path whose [k] components
    (the pieces between separators that are not empty) are neither [.]
    nor [..], and when the status query of the root and of every
    prefix succeeds, [subpaths] returns [k + 1] records whose
    [fullpath]s are, in order, the root ["/"] and the prefixes
    ["/c1"], ["/c1/c2"], ... up to the path of all the components. *)
Theorem subpaths_absolute :
  forall (fs : FileSystem) (s : str),
    path.isAbsolute s = true ->
    Forall (fun c => c <> lit "." /\ c <> lit "..") (components s) ->
    (forall i, (i <= List.length (components s))%nat ->
       exists stats,
         fs_lstat fs (root_path (firstn i (components s))) = Normal stats) ->
    exists records,
      outcome (subpaths fs (VString s)) = Normal (Some records)
      /\ List.length records = S (List.length (components s))
      /\ List.map fullpath records
         = List.map (fun i => root_path (firstn i (components s)))
             (seq 0 (S (List.length (components s)))).
Proof.
  intros fs s Habs Hdots Hok.
  pose proof (components_entry_names s Hdots) as Hcs.
  exists (List.map (level_metadata fs (components s))
            (seq 0 (S (List.length (components s))))).
  split; [|split].
  - rewrite subpaths_outcome, (subpaths_dirs s Habs). cbv zeta.
    unfold lodash.map.
    rewrite (map_from_outcome _ (level_metadata fs (components s)));
      [reflexivity|].
    intros j x Hj. simpl Nat.add.
    rewrite subpaths_level by assumption.
    assert (Hjk : (j <= List.length (components s))%nat).
    { assert (j < List.length (lit "/" :: components s))%nat
        by (apply nth_error_Some; congruence).
      simpl in *. lia. }
    destruct (Hok j Hjk) as (stats & ->). reflexivity.
  - rewrite length_map, length_seq. reflexivity.
  - rewrite map_map. reflexivity.
Qed.

Lemma subpaths_absolute_witness :
  path.isAbsolute (lit "/a/b/c") = true
  /\ Forall (fun c => c <> lit "." /\ c <> lit "..")
       (components (lit "/a/b/c"))
  /\ exists records,
       outcome (subpaths fs_all_dirs (VString (lit "/a/b/c")))
       = Normal (Some records)
       /\ List.length records = S (List.length (components (lit "/a/b/c")))
       /\ List.map fullpath records
          = List.map (fun i => root_path (firstn i (components (lit "/a/b/c"))))
              (seq 0 (S (List.length (components (lit "/a/b/c"))))).
Proof.
  assert (H : Forall (fun c => c <> lit "." /\ c <> lit "..")
                (components (lit "/a/b/c"))).
  { vm_compute. repeat constructor; discriminate. }
  split; [reflexivity|]. split; [exact H|].
  apply (subpaths_absolute fs_all_dirs (lit "/a/b/c")).
  - reflexivity.
  - exact H.
  - intros i _. eexists. reflexivity.
Defined.

(** When the status query of a level fails after those of the levels
    above it succeeded, [subpaths] throws that error: the levels below
    are not queried and no record is returned. *)
Lemma subpaths_level_fails (fs : FileSystem) (s : str) (k : nat) (e : error) :
  path.isAbsolute s = true ->
  Forall (fun c => c <> lit "." /\ c <> lit "..") (components s) ->
  (k <= List.length (components s))%nat ->
  fs_lstat fs (root_path (firstn k (components s))) = Throw e ->
  (forall i, (i < k)%nat ->
     exists stats,
       fs_lstat fs (root_path (firstn i (components s))) = Normal stats) ->
  outcome (subpaths fs (VString s)) = Throw e.
Proof.
  intros Habs Hdots Hk He Hok.
  pose proof (components_entry_names s Hdots) as Hcs.
  rewrite subpaths_outcome, (subpaths_dirs s Habs). cbv zeta.
  unfold lodash.map.
  destruct (nth_error (lit "/" :: components s) k) as [x|] eqn:Hx;
    [|apply nth_error_None in Hx; simpl in Hx; lia].
  rewrite (map_from_throw _ e (lit "/" :: components s) 0 k x Hx);
    [reflexivity | |].
  - simpl Nat.add. rewrite subpaths_level by assumption.
    rewrite He. reflexivity.
  - intros j y Hj _. simpl Nat.add. rewrite subpaths_level by assumption.
    destruct (Hok j Hj) as (stats & ->). eexists; reflexivity.
Qed.

(** The example of the source: the four levels of /a/b/c. *)
Lemma subpaths_a_b_c :
  exists records,
    outcome (subpaths fs_all_dirs (VString (lit "/a/b/c")))
    = Normal (Some records)
    /\ List.map fullpath records
       = [lit "/"; lit "/a"; lit "/a/b"; lit "/a/b/c"].
Proof. eexists. split; reflexivity. Qed.

(** C8 fails as stated. The path /a/.. has the two components [a] and
    [..], and every status query succeeds; the third record is the one
    of ["/"], not of the prefix ["/a/.."]. And on /tmp/y, which does
    not exist while /tmp does, [subpaths] returns no records: it
    throws the error of the failed status query. *)
Lemma subpaths_absolute_counterexample :
  (exists records,
     outcome (subpaths fs_all_dirs (VString (lit "/a/..")))
     = Normal (Some records)
     /\ components (lit "/a/..") = [lit "a"; lit ".."]
     /\ List.map fullpath records = [lit "/"; lit "/a"; lit "/"]
     /\ List.map fullpath records <> [lit "/"; lit "/a"; lit "/a/.."])
  /\ outcome (subpaths fs_tmp_x (VString (lit "/tmp/y"))) = Throw ENOENT.
Proof.
  split; [|reflexivity].
  eexists. split; [reflexivity|]. vm_compute.
  repeat split; try reflexivity. discriminate.
Qed.

(** * More properties of the module *)

(** ** The batch lookup under any events *)

Section BluebirdSafety.

Local Open Scope nat_scope.

Context {B : Type}.

Lemma count_filled_le (slots : list (option B)) :
  count_filled slots <= List.length slots.
Proof.
  induction slots as [|[v|] slots IH]; simpl; lia.
Qed.

Lemma count_filled_store (j : nat) (v : B) (slots : list (option B)) :
  nth_error slots j = Some None ->
  count_filled (Bluebird.store j v slots) = S (count_filled slots).
Proof.
  revert j; induction slots as [|s slots IH]; intros [|j] H; simpl in *;
    try discriminate.
  - injection H as ->. reflexivity.
  - destruct s; simpl; rewrite (IH j H); reflexivity.
Qed.

Lemma count_filled_full (slots : list (option B)) :
  List.length slots <= count_filled slots ->
  forall i, i < List.length slots ->
            exists v, nth_error slots i = Some (Some v).
Proof.
  induction slots as [|s slots IH]; simpl; intros H i Hi; [lia|].
  pose proof (count_filled_le slots) as Hle.
  destruct s as [v|]; [|lia].
  destruct i as [|i]; simpl; [eauto|].
  apply IH; lia.
Qed.

Lemma nth_error_store_inv (i j : nat) (v w : B) (slots : list (option B)) :
  nth_error (Bluebird.store j v slots) i = Some (Some w) ->
  (i = j /\ w = v) \/ nth_error slots i = Some (Some w).
Proof.
  intros H. destruct (Nat.eq_dec i j) as [->|Hne].
  - destruct (Nat.lt_ge_cases j (List.length slots)) as [Hj|Hj].
    + rewrite nth_error_store_eq in H by assumption.
      injection H as ->. left. auto.
    + assert (Hnone : nth_error (Bluebird.store j v slots) j = None)
        by (apply nth_error_None; rewrite store_length; assumption).
      congruence.
  - rewrite nth_error_store_neq in H by assumption. right. assumption.
Qed.

(** Every event keeps the promise array safe. *)
Lemma settle_safe (ps : list (promise B)) (j : nat) (m : Bluebird.map_state B) :
  map_safe ps m -> map_safe ps (Bluebird.settle ps j m).
Proof.
  intros (Hlen & Hval & Hst). unfold Bluebird.settle.
  destruct (Bluebird.settled m) as [|l|e] eqn:Es;
    [|unfold map_safe; rewrite Es; auto | unfold map_safe; rewrite Es; auto].
  destruct (nth_error (Bluebird.values m) j) as [[w|]|] eqn:Ej;
    [unfold map_safe; rewrite Es; auto | | unfold map_safe; rewrite Es; auto].
  destruct (nth_error ps j) as [[|v|e]|] eqn:Ep;
    try (unfold map_safe; rewrite Es; auto; fail).
  - (* a fulfilment *)
    assert (Hval' : forall i w,
              nth_error (Bluebird.store j v (Bluebird.values m)) i
              = Some (Some w) ->
              nth_error ps i = Some (Fulfilled w)).
    { intros i w Hi. apply nth_error_store_inv in Hi.
      destruct Hi as [[-> ->]|Hi]; [assumption | apply Hval; assumption]. }
    assert (Hcount : count_filled (Bluebird.store j v (Bluebird.values m))
                     = S (Bluebird.totalResolved m))
      by (rewrite count_filled_store by assumption; rewrite Hst; reflexivity).
    destruct (List.length (Bluebird.values m) <=? S (Bluebird.totalResolved m))
      eqn:Efull.
    + apply Nat.leb_le in Efull.
      assert (Hall : forall i, i < List.length ps ->
                exists w, nth_error ps i = Some (Fulfilled w)
                          /\ nth_error
                               (Bluebird.store j v (Bluebird.values m)) i
                             = Some (Some w)).
      { intros i Hi.
        destruct (count_filled_full
                    (Bluebird.store j v (Bluebird.values m))) with (i := i)
          as (w & Hw); [rewrite store_length; lia | rewrite store_length; lia|].
        exists w. split; [apply Hval'; assumption | assumption]. }
      rewrite (collect_filled ps) by (rewrite ?store_length; assumption).
      repeat split; simpl; [rewrite store_length; assumption | exact Hval'|].
      intros p Hp. apply In_nth_error in Hp. destruct Hp as (i & Hi).
      destruct (Hall i) as (w & Hw & _);
        [apply nth_error_Some; congruence|].
      exists w. congruence.
    + repeat split; simpl;
        [rewrite store_length; assumption | exact Hval' | symmetry; exact Hcount].
  - (* a rejection *)
    repeat split; simpl; [assumption | assumption | exists j; assumption].
Qed.

Lemma settle_all_safe (ps : list (promise B)) (sched : list nat) :
  forall m, map_safe ps m ->
    map_safe ps (fold_left (fun m index => Bluebird.settle ps index m) sched m).
Proof.
  induction sched as [|j sched IH]; intros m H; simpl; [assumption|].
  apply IH, settle_safe, H.
Qed.

Lemma count_filled_none {A : Type} (l : list A) :
  count_filled (List.map (fun _ => @None B) l) = 0.
Proof. induction l; simpl; auto. Qed.

(** Whatever events reach it, in whatever order and however often,
    the promise of [Bluebird.map] is pending, or fulfilled with the
    values of all the promises in the order of the input, or rejected
    with the error of one of them. *)
Lemma Bluebird_map_safe {A : Type} (arr : list A)
    (mapper : A -> Bluebird.mapper_outcome B) (ps : list (promise B))
    (sched : list nat) :
  Bluebird.iterate mapper arr = Normal ps ->
  match Bluebird.map arr mapper sched with
  | Pending => True
  | Fulfilled l =>
      l = values_of ps /\ forall p, In p ps -> exists v, p = Fulfilled v
  | Rejected e => exists i, nth_error ps i = Some (Rejected e)
  end.
Proof.
  intros Hit. unfold Bluebird.map. rewrite Hit.
  destruct ps as [|p ps'] eqn:Eps.
  - split; [reflexivity | intros p []].
  - rewrite <- Eps.
    assert (Hsafe : map_safe ps
              (fold_left (fun m index => Bluebird.settle ps index m) sched
                 (Bluebird.mkMapState (List.map (fun _ => None) ps) 0 Pending))).
    { apply settle_all_safe. repeat split; simpl.
      - apply length_map.
      - intros i v Hi. rewrite nth_error_map in Hi.
        destruct (nth_error ps i); discriminate.
      - symmetry. apply count_filled_none. }
    destruct Hsafe as (_ & _ & Hst).
    destruct (Bluebird.settled _); [exact I | exact Hst | exact Hst].
Qed.

End BluebirdSafety.

Lemma lookup_fulfilled_inv (fs : FileSystem) (d n : str) (m : FileMetadata) :
  lookup fs d n = Fulfilled m ->
  exists s, fs_lstat fs (path.join [d; n]) = Normal s.
Proof.
  unfold lookup, getFileMetadataAsync, lstatAsync, then_, promisify.
  simpl default_empty.
  destruct (fs_lstat fs (path.join [d; n])) as [s|e]; [eauto | discriminate].
Qed.

(** Whatever events reach the batch lookup, in whatever order, however
    often and however few, its promise never holds a part of the
    results: it is pending, or fulfilled with one record for every
    name, in the order of the names, or rejected with the error of the
    status query of one of the names. *)
Theorem getAllFilesMetadataAsync_any_events :
  forall (fs : FileSystem) (dirname : str) (basenames : list str)
         (sched : list nat),
    match getAllFilesMetadataAsync fs dirname basenames sched with
    | Pending => True
    | Fulfilled records =>
        Forall2 (fun n m =>
                   getFileMetadataAsync fs dirname (Some n) = Fulfilled m
                   /\ fullpath m = path.join [dirname; n])
          basenames records
    | Rejected e =>
        exists n, In n basenames
                  /\ fs_lstat fs (path.join [dirname; n]) = Throw e
    end.
Proof.
  intros fs d names sched.
  rewrite getAllFilesMetadataAsync_lookups.
  pose proof (Bluebird_map_safe names _ (List.map (lookup fs d) names) sched
                (iterate_lookups fs d names)) as H.
  destruct (Bluebird.map names _ sched) as [|records|e]; [exact I | |].
  - destruct H as [-> Hall].
    apply values_of_lookups. intros n Hn.
    destruct (Hall (lookup fs d n)) as (m & Hm);
      [apply in_map; assumption|].
    eapply lookup_fulfilled_inv; eassumption.
  - destruct H as (i & Hi). rewrite nth_error_map in Hi.
    destruct (nth_error names i) as [n|] eqn:En; [|discriminate].
    simpl in Hi. injection Hi as Hi.
    exists n. split; [eapply nth_error_In; eassumption|].
    apply lookup_rejected; assumption.
Qed.

(** Under the root, the status query of d succeeds and the one of gone
    fails with ENOENT; the lookup of d settles first. *)
Lemma getAllFilesMetadataAsync_fail_fast_witness :
  Permutation [0%nat; 1%nat]
    (seq 0 (List.length [lit "d"; lit "gone"]))
  /\ In (lit "gone") [lit "d"; lit "gone"]
  /\ fs_lstat fs_entry_gone (path.join [lit "/"; lit "gone"]) = Throw ENOENT
  /\ exists before j after n' e',
       [0%nat; 1%nat] = before ++ j :: after
       /\ nth_error [lit "d"; lit "gone"] j = Some n'
       /\ fs_lstat fs_entry_gone (path.join [lit "/"; n']) = Throw e'
       /\ (forall i, In i before ->
              exists ni si,
                nth_error [lit "d"; lit "gone"] i = Some ni
                /\ fs_lstat fs_entry_gone (path.join [lit "/"; ni]) = Normal si)
       /\ getAllFilesMetadataAsync fs_entry_gone (lit "/")
            [lit "d"; lit "gone"] [0%nat; 1%nat] = Rejected e'.
Proof.
  assert (H : Permutation [0%nat; 1%nat]
                (seq 0 (List.length [lit "d"; lit "gone"])))
    by (simpl; apply Permutation_refl).
  assert (Hin : In (lit "gone") [lit "d"; lit "gone"])
    by (right; left; reflexivity).
  split; [exact H|]. split; [exact Hin|]. split; [reflexivity|].
  apply (getAllFilesMetadataAsync_fail_fast fs_entry_gone (lit "/")
           [lit "d"; lit "gone"] [0%nat; 1%nat] (lit "gone") ENOENT H Hin).
  reflexivity.
Defined.

(** ** getDirectoryContents and getDirectory *)

(** The promise of [getDirectoryContents], by the listing: rejected
    with the error of a listing that fails, fulfilled with the empty
    sequence on an empty listing, and rejected with the TypeError of
    the undefined [exports.getFileMetadata] on any other. *)
Lemma getDirectoryContents_outcomes :
  forall (fs : FileSystem) (dirname : str) (sched : list nat),
    getDirectoryContents fs dirname sched
    = match fs_readdir fs dirname with
      | Throw e => Rejected e
      | Normal [] => Fulfilled []
      | Normal (_ :: _) => Rejected TypeError_not_a_function
      end.
Proof.
  intros fs d sched. unfold getDirectoryContents, readdirAsync, then_, promisify.
  destruct (fs_readdir fs d) as [[|x xs]|e].
  - reflexivity.
  - apply Bluebird_map_mapper_throws. reflexivity.
  - reflexivity.
Qed.

(** [getDirectoryContents] is fulfilled exactly when [getDirectory] is
    fulfilled with the empty listing, and is rejected whenever
    [getDirectory] is. *)
Theorem getDirectoryContents_getDirectory :
  forall (fs : FileSystem) (dirname : str) (sched : list nat),
    (forall records,
       getDirectoryContents fs dirname sched = Fulfilled records
       <-> records = [] /\ getDirectory fs dirname = Fulfilled [])
    /\ (forall e,
          getDirectory fs dirname = Rejected e ->
          getDirectoryContents fs dirname sched = Rejected e).
Proof.
  intros fs d sched. rewrite getDirectoryContents_outcomes.
  unfold getDirectory, readdirAsync, promisify.
  destruct (fs_readdir fs d) as [[|x xs]|e]; split.
  - intros records. split.
    + intros H. injection H as <-. auto.
    + intros [-> _]. reflexivity.
  - discriminate.
  - intros records. split; [discriminate | intros [_ H]; discriminate].
  - discriminate.
  - intros records. split; [discriminate | intros [_ H]; discriminate].
  - intros e' H. injection H as ->. reflexivity.
Qed.

(** ** subpaths: what every call does *)

Lemma io_eta {A : Type} (m : io A) : m = (trace m, outcome m).
Proof. destruct m; reflexivity. Qed.

Lemma subpaths_unfold (fs : FileSystem) (s : str) :
  subpaths fs (VString s)
  = bind (lodash.map (subpaths_dirs_of s) (fun dir index =>
            getFileMetadataSync fs
              (path.join (firstn (index + 1) (subpaths_dirs_of s))) None))
      (fun l => ret (Some l)).
Proof. reflexivity. Qed.

Lemma bind_ret_some {A : Type} (m : io (list A)) :
  bind m (fun l => ret (Some l))
  = (trace m, match outcome m with
              | Normal l => Normal (Some l)
              | Throw e => Throw e
              end).
Proof.
  destruct m as [t [l|e]]; unfold bind, ret, trace, outcome; simpl;
    [rewrite app_nil_r|]; reflexivity.
Qed.

(** The list [dirs] is never empty: its head is the first piece of the
    split, or ["/"] in its place. *)
Lemma subpaths_dirs_of_head (s : str) :
  exists d ds, subpaths_dirs_of s = d :: ds /\ d <> [].
Proof.
  unfold subpaths_dirs_of, lodash.update0.
  destruct (split path.sep s) as [|[|c r] ws]; simpl.
  - exists (lit "/"), []. split; [reflexivity | discriminate].
  - exists (lit "/"), (lodash.compact ws). split; [reflexivity | discriminate].
  - exists (c :: r), (lodash.compact ws). split; [|discriminate].
    unfold lodash.compact. simpl. reflexivity.
Qed.

Lemma subpaths_dirs_of_absolute (s : str) :
  path.isAbsolute s = true \/ s = [] ->
  subpaths_dirs_of s = lit "/" :: components s.
Proof.
  intros [H| ->]; [apply subpaths_dirs; assumption | reflexivity].
Qed.

Lemma map_from_length {A B : Type} (iteratee : A -> nat -> io B) :
  forall (array : list A) (index : nat) (l : list B),
    outcome (lodash.map_from index array iteratee) = Normal l ->
    List.length l = List.length array.
Proof.
  induction array as [|x xs IH]; intros index l.
  - simpl. unfold ret, outcome. simpl. intros H. injection H as <-. reflexivity.
  - cbn [lodash.map_from]. rewrite outcome_bind.
    destruct (outcome (iteratee x index)) as [y|e]; [|discriminate].
    rewrite outcome_bind.
    destruct (outcome (lodash.map_from (S index) xs iteratee)) as [ys|e] eqn:E;
      [|discriminate].
    unfold ret, outcome. simpl. intros H. injection H as <-.
    simpl. f_equal. eapply IH. eassumption.
Qed.

(** An array that [subpaths] returns is never empty: it holds one
    record for every element of [dirs], which for an absolute path is
    one for the root and one for every component, whatever the
    components are. *)
Theorem subpaths_count :
  forall (fs : FileSystem) (s : str) (records : list FileMetadata),
    outcome (subpaths fs (VString s)) = Normal (Some records) ->
    records <> []
    /\ List.length records = List.length (subpaths_dirs_of s)
    /\ (path.isAbsolute s = true ->
        List.length records = S (List.length (components s))).
Proof.
  intros fs s records H.
  rewrite subpaths_unfold, bind_ret_some in H. unfold outcome at 1 in H.
  simpl in H.
  destruct (outcome (lodash.map _ _)) as [l|e] eqn:E; [|discriminate].
  injection H as ->.
  apply map_from_length in E.
  destruct (subpaths_dirs_of_head s) as (d & ds & Hd & _).
  split; [|split].
  - intros ->. rewrite Hd in E. discriminate.
  - exact E.
  - intros Habs. rewrite E, subpaths_dirs_of_absolute by (left; assumption).
    reflexivity.
Qed.

Lemma subpaths_count_witness :
  exists records,
    outcome (subpaths fs_all_dirs (VString (lit "/a/.."))) = Normal (Some records)
    /\ records <> []
    /\ List.length records = List.length (subpaths_dirs_of (lit "/a/.."))
    /\ (path.isAbsolute (lit "/a/..") = true ->
        List.length records = S (List.length (components (lit "/a/..")))).
Proof.
  eexists. split; [reflexivity|].
  apply (subpaths_count fs_all_dirs (lit "/a/..")). reflexivity.
Defined.

(** [subpaths] sees an absolute path through its components only:
    repeated and trailing separators change nothing, neither in the
    queries sent nor in the result, and the empty string is walked as
    the root is. *)
Theorem subpaths_same_components :
  forall (fs : FileSystem) (s1 s2 : str),
    path.isAbsolute s1 = true \/ s1 = [] ->
    path.isAbsolute s2 = true \/ s2 = [] ->
    components s1 = components s2 ->
    subpaths fs (VString s1) = subpaths fs (VString s2).
Proof.
  intros fs s1 s2 H1 H2 Hc.
  rewrite !subpaths_unfold.
  rewrite (subpaths_dirs_of_absolute s1 H1), (subpaths_dirs_of_absolute s2 H2).
  rewrite Hc. reflexivity.
Qed.

Lemma subpaths_same_components_witness :
  (path.isAbsolute (lit "//tmp///x/") = true \/ lit "//tmp///x/" = [])
  /\ (path.isAbsolute (lit "/tmp/x") = true \/ lit "/tmp/x" = [])
  /\ components (lit "//tmp///x/") = components (lit "/tmp/x")
  /\ subpaths fs_tmp_x (VString (lit "//tmp///x/"))
     = subpaths fs_tmp_x (VString (lit "/tmp/x")).
Proof.
  assert (H1 : path.isAbsolute (lit "//tmp///x/") = true \/ lit "//tmp///x/" = [])
    by (left; reflexivity).
  assert (H2 : path.isAbsolute (lit "/tmp/x") = true \/ lit "/tmp/x" = [])
    by (left; reflexivity).
  assert (Hc : components (lit "//tmp///x/") = components (lit "/tmp/x"))
    by reflexivity.
  split; [exact H1|]. split; [exact H2|]. split; [exact Hc|].
  exact (subpaths_same_components fs_tmp_x _ _ H1 H2 Hc).
Defined.

(** ** subpaths: the queries it sends *)

(** A map whose calls up to index [k] each send one query, and whose
    call at [k] is the first to throw: the queries up to [k] were sent,
    in order, and no other. *)
Lemma map_from_stops {A B : Type} (iteratee : A -> nat -> io B)
    (q : nat -> query) (e : error) :
  forall (array : list A) (index k : nat) (x : A),
    nth_error array k = Some x ->
    iteratee x (index + k)%nat = ([q (index + k)%nat], Throw e) ->
    (forall j y, (j < k)%nat -> nth_error array j = Some y ->
       exists b, iteratee y (index + j)%nat = ([q (index + j)%nat], Normal b)) ->
    lodash.map_from index array iteratee
    = (List.map q (seq index (S k)), Throw e).
Proof.
  induction array as [|a xs IH]; intros index k x Hk He Hbefore.
  - destruct k; discriminate.
  - cbn [lodash.map_from].
    destruct k as [|k].
    + simpl in Hk. injection Hk as ->. rewrite Nat.add_0_r in He.
      rewrite He. reflexivity.
    + destruct (Hbefore 0%nat a) as (b & Hb); [lia | reflexivity|].
      rewrite Nat.add_0_r in Hb. rewrite Hb.
      rewrite (IH (S index) k x Hk).
      * reflexivity.
      * rewrite Nat.add_succ_comm. exact He.
      * intros j y Hj Hy. rewrite Nat.add_succ_comm.
        apply (Hbefore (S j)); [lia | exact Hy].
Qed.

(** A map whose calls each send one query and return. *)
Lemma map_from_runs {A B : Type} (iteratee : A -> nat -> io B)
    (q : nat -> query) (f : nat -> B) :
  forall (array : list A) (index : nat),
    (forall j x, nth_error array j = Some x ->
       iteratee x (index + j)%nat
       = ([q (index + j)%nat], Normal (f (index + j)%nat))) ->
    lodash.map_from index array iteratee
    = (List.map q (seq index (List.length array)),
       Normal (List.map f (seq index (List.length array)))).
Proof.
  induction array as [|x xs IH]; intros index H; [reflexivity|].
  cbn [lodash.map_from].
  pose proof (H 0%nat x eq_refl) as H0. rewrite Nat.add_0_r in H0.
  rewrite H0, (IH (S index)).
  - unfold bind, ret. simpl. rewrite app_nil_r. reflexivity.
  - intros j y Hj. rewrite Nat.add_succ_comm. apply (H (S j)). exact Hj.
Qed.

(** The call of [subpaths] at a level of an absolute path: one status
    query, on the path of the level. *)
Lemma subpaths_level_io (fs : FileSystem) (cs : list str) (i : nat) :
  Forall (fun c => entry_name c = true) cs ->
  getFileMetadataSync fs (path.join (firstn (i + 1) (lit "/" :: cs))) None
  = ([QLstat (root_path (firstn i cs))],
     match fs_lstat fs (root_path (firstn i cs)) with
     | Normal _ => Normal (level_metadata fs cs i)
     | Throw e => Throw e
     end).
Proof.
  intros Hcs.
  rewrite (io_eta (getFileMetadataSync _ _ _)).
  rewrite subpaths_level by assumption.
  rewrite getFileMetadataSync_trace. cbn [default_empty].
  assert (Hi : Forall (fun c => entry_name c = true) (firstn i cs))
    by (apply Forall_firstn_entry; assumption).
  rewrite Nat.add_1_r. cbn [firstn].
  rewrite join_root_entry_names, join_root_path by assumption.
  reflexivity.
Qed.

(** [subpaths] walks an absolute path from the root down and stops at
    the first level whose status query fails: it has then sent the
    queries of the root and of the levels down to that one, in order,
    and no query below it, and it throws the error of that query
    instead of returning records. *)
Theorem subpaths_stops_at_failure :
  forall (fs : FileSystem) (s : str) (k : nat) (e : error),
    path.isAbsolute s = true ->
    Forall (fun c => c <> lit "." /\ c <> lit "..") (components s) ->
    (k <= List.length (components s))%nat ->
    fs_lstat fs (root_path (firstn k (components s))) = Throw e ->
    (forall i, (i < k)%nat ->
       exists stats,
         fs_lstat fs (root_path (firstn i (components s))) = Normal stats) ->
    subpaths fs (VString s)
    = (level_queries (components s) (S k), Throw e).
Proof.
  intros fs s k e Habs Hdots Hk He Hok.
  pose proof (components_entry_names s Hdots) as Hcs.
  rewrite subpaths_unfold, bind_ret_some.
  rewrite (subpaths_dirs_of_absolute s (or_introl Habs)).
  unfold lodash.map.
  destruct (nth_error (lit "/" :: components s) k) as [x|] eqn:Hx;
    [|apply nth_error_None in Hx; simpl in Hx; lia].
  rewrite (map_from_stops _
             (fun i => QLstat (root_path (firstn i (components s)))) e
             (lit "/" :: components s) 0 k x Hx).
  - reflexivity.
  - simpl Nat.add. rewrite subpaths_level_io by assumption.
    rewrite He. reflexivity.
  - intros j y Hj _. simpl Nat.add. rewrite subpaths_level_io by assumption.
    destruct (Hok j Hj) as (stats & ->). eexists; reflexivity.
Qed.

Lemma subpaths_stops_at_failure_witness :
  path.isAbsolute (lit "/tmp/y/z") = true
  /\ Forall (fun c => c <> lit "." /\ c <> lit "..")
       (components (lit "/tmp/y/z"))
  /\ (2 <= List.length (components (lit "/tmp/y/z")))%nat
  /\ fs_lstat fs_tmp_x (root_path (firstn 2 (components (lit "/tmp/y/z"))))
     = Throw ENOENT
  /\ subpaths fs_tmp_x (VString (lit "/tmp/y/z"))
     = (level_queries (components (lit "/tmp/y/z")) 3, Throw ENOENT).
Proof.
  assert (H : Forall (fun c => c <> lit "." /\ c <> lit "..")
                (components (lit "/tmp/y/z"))).
  { vm_compute. repeat constructor; discriminate. }
  assert (Hk : (2 <= List.length (components (lit "/tmp/y/z")))%nat)
    by (vm_compute; lia).
  split; [reflexivity|]. split; [exact H|]. split; [exact Hk|].
  split; [reflexivity|].
  apply (subpaths_stops_at_failure fs_tmp_x (lit "/tmp/y/z") 2 ENOENT
           eq_refl H Hk eq_refl).
  intros [|[|i]] Hi; [eexists; reflexivity | eexists; reflexivity | lia].
Defined.

(** When every level can be queried, [subpaths] sends exactly one
    status query for the root and one for every prefix, from the root
    down, and returns the records of these levels in that order. *)
Theorem subpaths_queries :
  forall (fs : FileSystem) (s : str),
    path.isAbsolute s = true ->
    Forall (fun c => c <> lit "." /\ c <> lit "..") (components s) ->
    (forall i, (i <= List.length (components s))%nat ->
       exists stats,
         fs_lstat fs (root_path (firstn i (components s))) = Normal stats) ->
    subpaths fs (VString s)
    = (level_queries (components s) (S (List.length (components s))),
       Normal (Some (List.map (level_metadata fs (components s))
                       (seq 0 (S (List.length (components s))))))).
Proof.
  intros fs s Habs Hdots Hok.
  pose proof (components_entry_names s Hdots) as Hcs.
  rewrite subpaths_unfold, bind_ret_some.
  rewrite (subpaths_dirs_of_absolute s (or_introl Habs)).
  unfold lodash.map.
  rewrite (map_from_runs _
             (fun i => QLstat (root_path (firstn i (components s))))
             (level_metadata fs (components s))).
  - reflexivity.
  - intros j x Hj. simpl Nat.add. rewrite subpaths_level_io by assumption.
    assert (Hjk : (j <= List.length (components s))%nat).
    { assert (j < List.length (lit "/" :: components s))%nat
        by (apply nth_error_Some; congruence).
      simpl in *. lia. }
    destruct (Hok j Hjk) as (stats & ->). reflexivity.
Qed.

Lemma subpaths_queries_witness :
  path.isAbsolute (lit "/tmp/x") = true
  /\ Forall (fun c => c <> lit "." /\ c <> lit "..")
       (components (lit "/tmp/x"))
  /\ subpaths fs_tmp_x (VString (lit "/tmp/x"))
     = (level_queries (components (lit "/tmp/x"))
          (S (List.length (components (lit "/tmp/x")))),
        Normal (Some (List.map (level_metadata fs_tmp_x (components (lit "/tmp/x")))
                        (seq 0 (S (List.length (components (lit "/tmp/x")))))))).
Proof.
  assert (H : Forall (fun c => c <> lit "." /\ c <> lit "..")
                (components (lit "/tmp/x"))).
  { vm_compute. repeat constructor; discriminate. }
  split; [reflexivity|]. split; [exact H|].
  apply (subpaths_queries fs_tmp_x (lit "/tmp/x") eq_refl H).
  intros [|[|[|i]]] Hi; eexists; reflexivity.
Defined.

(** ** The directory part of a parsed path *)

(** The loop of [path.parse] on a path that ends with an entry name,
    with the start of the last component it finds: 0 when no separator
    stands before the name past the first code unit of the path. *)
Lemma parse_loop_start_part (x n : str) :
  ends_directory x ->
  n <> [] -> no_separator n = true ->
  path.parse_loop
    (rev (skipn (Z.to_nat (if path.isAbsolute (x ++ n) then 1 else 0))
            (x ++ n)))
    (len (x ++ n) - 1) path.pstate_init
  = parsed_name n (len x) (if len x <=? 1 then 0 else len x).
Proof.
  intros Hx Hne Hsep.
  pose proof (no_separator_rev n Hsep) as Hrsep.
  destruct Hx as [->|([|c y] & ->)].
  - simpl app. rewrite (entry_name_not_absolute n Hne Hsep).
    simpl skipn.
    rewrite <- (app_nil_r (rev n)), parse_loop_chars by assumption.
    cbn [path.parse_loop]. unfold path.pstate_init.
    replace (len n - 1) with (0 + len n - 1) by lia.
    rewrite (parse_chars_name n 0 0 Hne) by lia. reflexivity.
  - simpl app. simpl path.isAbsolute.
    change (isPosixPathSeparator path.sep) with true. cbv iota.
    simpl skipn.
    rewrite <- (app_nil_r (rev n)), parse_loop_chars by assumption.
    cbn [path.parse_loop]. unfold path.pstate_init.
    rewrite len_cons.
    rewrite (parse_chars_name n 1 0 Hne) by lia. reflexivity.
  - assert (Ho : 2 <= len ((c :: y) ++ [path.sep])).
    { rewrite len_app, !len_cons, len_nil. pose proof (len_nonneg y). lia. }
    assert (Hrev : exists rest,
              rev (skipn (Z.to_nat (if path.isAbsolute (((c :: y) ++ [path.sep]) ++ n)
                                    then 1 else 0))
                     (((c :: y) ++ [path.sep]) ++ n))
              = rev n ++ path.sep :: rest).
    { destruct (path.isAbsolute (((c :: y) ++ [path.sep]) ++ n)).
      - exists (rev y). change (Z.to_nat 1) with 1%nat. cbn [app skipn].
        rewrite !rev_app_distr. reflexivity.
      - exists (rev (c :: y)). change (Z.to_nat 0) with 0%nat. cbn [skipn].
        rewrite !rev_app_distr. reflexivity. }
    destruct Hrev as (rest & ->).
    rewrite parse_loop_chars by assumption.
    unfold path.pstate_init.
    rewrite len_rev, (len_app _ n).
    set (o := len ((c :: y) ++ [path.sep])) in *.
    rewrite (parse_chars_name n o 0 Hne) by lia.
    cbn [path.parse_loop].
    change (isPosixPathSeparator path.sep) with true. cbv iota.
    destruct (parsed_name_start_part n o 0 (o + len n - 1 - len n + 1))
      as [Hms Hsp].
    rewrite Hms. simpl negb. cbv iota. rewrite Hsp.
    replace (o + len n - 1 - len n + 1) with o by lia.
    replace (o <=? 1) with false by (symmetry; apply Z.leb_gt; lia).
    reflexivity.
Qed.

Lemma slice_prefix (y t : str) : slice (y ++ t) 0 (len y) = y.
Proof. apply (slice_middle [] y t). Qed.

(** The directory that [path.parse] finds on a path whose last
    component is an entry name: nothing for the name alone, the root
    for a name under the root, and otherwise all that stands before
    the separator of the name. *)
Lemma parse_dir_entry_name (y n : str) :
  n <> [] -> no_separator n = true ->
  path.dir (path.parse n) = []
  /\ path.dir (path.parse (path.sep :: n)) = lit "/"
  /\ (y <> [] ->
      path.dir (path.parse (y ++ path.sep :: n)) = y).
Proof.
  intros Hne Hsep.
  assert (Hlen : 0 < len n).
  { destruct n; [congruence|]. rewrite len_cons. pose proof (len_nonneg n). lia. }
  assert (Hsp : forall x sp, path.startPart (parsed_name n (len x) sp) = sp).
  { intros x sp. unfold parsed_name.
    destruct (split_last_dot n) as [[a b]|]; reflexivity. }
  assert (Hdir : forall x, ends_directory x ->
            path.dir (path.parse (x ++ n))
            = if 0 <? (if len x <=? 1 then 0 else len x)
              then slice (x ++ n) 0 ((if len x <=? 1 then 0 else len x) - 1)
              else if path.isAbsolute (x ++ n) then lit "/" else []).
  { intros x Hx. unfold path.parse.
    replace (len (x ++ n) =? 0) with false
      by (symmetry; apply Z.eqb_neq; rewrite len_app;
          pose proof (len_nonneg x); lia).
    rewrite (parse_loop_start_part x n Hx Hne Hsep), Hsp.
    destruct (negb _); [|reflexivity].
    destruct (_ || _); reflexivity. }
  split; [|split].
  - pose proof (Hdir [] (or_introl eq_refl)) as H0. cbn [app] in H0.
    rewrite H0, (entry_name_not_absolute n Hne Hsep). reflexivity.
  - change (path.sep :: n) with ([path.sep] ++ n).
    rewrite (Hdir [path.sep]); [reflexivity|]. right. exists []. reflexivity.
  - intros Hy.
    replace (y ++ path.sep :: n) with ((y ++ [path.sep]) ++ n)
      by (rewrite <- app_assoc; reflexivity).
    rewrite (Hdir (y ++ [path.sep])); [|right; eexists; reflexivity].
    assert (Hylen : 0 < len y).
    { destruct y; [congruence|]. rewrite len_cons.
      pose proof (len_nonneg y). lia. }
    rewrite len_app, len_cons, len_nil.
    replace (len y + (1 + 0) <=? 1) with false
      by (symmetry; apply Z.leb_gt; lia).
    replace (0 <? len y + (1 + 0)) with true
      by (symmetry; apply Z.ltb_lt; lia).
    replace (len y + (1 + 0) - 1) with (len y) by lia.
    rewrite <- app_assoc. apply slice_prefix.
Qed.

(** ** Records of the entries of a directory *)

Lemma absolute_path_snoc (cs : list str) (n : str) :
  absolute_path (cs ++ [n]) = absolute_path cs ++ path.sep :: n.
Proof.
  unfold absolute_path. rewrite map_app, concat_app. simpl.
  rewrite app_nil_r. reflexivity.
Qed.

Lemma absolute_path_nonempty (c : str) (cs : list str) :
  absolute_path (c :: cs) <> [].
Proof. discriminate. Qed.

(** The join of a normalized absolute directory and an entry name. *)
Lemma join_root_path_entry (cs : list str) (n : str) :
  Forall (fun c => entry_name c = true) cs ->
  entry_name n = true ->
  path.join [root_path cs; n] = absolute_path (cs ++ [n]).
Proof.
  intros Hcs Hn.
  assert (Hall : Forall (fun c => entry_name c = true) (cs ++ [n]))
    by (apply Forall_app; split; [assumption | constructor; [assumption | constructor]]).
  assert (Hne : cs ++ [n] <> []) by (destruct cs; discriminate).
  unfold path.join. simpl path.join_loop.
  replace (0 <? len n) with true
    by (symmetry; apply Z.ltb_lt, entry_name_len; assumption).
  destruct cs as [|c cs].
  - change (0 <? len (root_path [])) with true. cbv iota.
    change ([] ++ [n]) with [n].
    assert (Hone : path.sep :: n = absolute_path [n])
      by (unfold absolute_path; simpl; rewrite app_nil_r; reflexivity).
    change (root_path [] ++ path.sep :: n) with ([path.sep] ++ path.sep :: n).
    rewrite Hone.
    apply (normalize_absolute_path [path.sep] [n]); auto.
  - assert (H : (0 <? len (root_path (c :: cs))) = true).
    { unfold root_path, absolute_path. simpl. rewrite len_cons.
      apply Z.ltb_lt.
      pose proof (len_nonneg (c ++ List.concat (List.map (cons path.sep) cs))).
      lia. }
    rewrite H. unfold root_path.
    rewrite <- absolute_path_snoc.
    apply (normalize_absolute_path [] ((c :: cs) ++ [n])); auto.
Qed.

(** For a directory given as a normalized absolute path [d] and an
    entry name [n] whose status query succeeds, the record of [n] in
    [d] has [d] as [dirname], [n] as [basename] and ["d/n"] as
    [fullpath], and joining its [dirname] and [basename] gives its
    [fullpath] back. *)
Theorem getFileMetadata_in_directory :
  forall (fs : FileSystem) (cs : list str) (n : str) (stats : Stats),
    Forall (fun c => entry_name c = true) cs ->
    entry_name n = true ->
    fs_lstat fs (absolute_path (cs ++ [n])) = Normal stats ->
    exists m,
      outcome (getFileMetadataSync fs (root_path cs) (Some n)) = Normal m
      /\ getFileMetadataAsync fs (root_path cs) (Some n) = Fulfilled m
      /\ fullpath m = absolute_path (cs ++ [n])
      /\ dirname m = root_path cs
      /\ basename m = n
      /\ isDirectory m = stats_isDirectory stats
      /\ size m = stats_size stats
      /\ path.join [dirname m; basename m] = fullpath m.
Proof.
  intros fs cs n stats Hcs Hn Hs.
  pose proof (join_root_path_entry cs n Hcs Hn) as Hjoin.
  pose proof (entry_name_inv n Hn) as (Hne & Hsep & _).
  exists (metadata_of (absolute_path (cs ++ [n])) stats).
  assert (Hm : outcome (getFileMetadataSync fs (root_path cs) (Some n))
               = Normal (metadata_of (absolute_path (cs ++ [n])) stats)).
  { rewrite getFileMetadataSync_outcome. simpl default_empty.
    rewrite Hjoin, Hs. reflexivity. }
  split; [exact Hm|].
  split; [rewrite getFileMetadataAsync_outcome, Hm; reflexivity|].
  assert (Hbase : path.base (path.parse (absolute_path (cs ++ [n]))) = n).
  { rewrite absolute_path_snoc.
    replace (absolute_path cs ++ path.sep :: n)
      with ((absolute_path cs ++ [path.sep]) ++ n)
      by (rewrite <- app_assoc; reflexivity).
    apply parse_entry_name; [right; eexists; reflexivity | assumption]. }
  assert (Hdir : path.dir (path.parse (absolute_path (cs ++ [n])))
                 = root_path cs).
  { rewrite absolute_path_snoc.
    destruct (parse_dir_entry_name (absolute_path cs) n Hne Hsep)
      as (_ & Hroot & Hunder).
    destruct cs as [|c cs]; [exact Hroot|].
    apply Hunder. discriminate. }
  unfold metadata_of.
  cbn [fullpath dirname basename isDirectory size].
  rewrite Hbase, Hdir.
  repeat split; try reflexivity. exact Hjoin.
Qed.

Lemma getFileMetadata_in_directory_witness :
  Forall (fun c => entry_name c = true) [lit "tmp"; lit "x"]
  /\ entry_name (lit "notes.txt") = true
  /\ fs_lstat fs_tmp_x (absolute_path ([lit "tmp"; lit "x"] ++ [lit "notes.txt"]))
     = Normal (mkStats false 3)
  /\ exists m,
       outcome (getFileMetadataSync fs_tmp_x (root_path [lit "tmp"; lit "x"])
                  (Some (lit "notes.txt"))) = Normal m
       /\ getFileMetadataAsync fs_tmp_x (root_path [lit "tmp"; lit "x"])
            (Some (lit "notes.txt")) = Fulfilled m
       /\ fullpath m = absolute_path ([lit "tmp"; lit "x"] ++ [lit "notes.txt"])
       /\ dirname m = root_path [lit "tmp"; lit "x"]
       /\ basename m = lit "notes.txt"
       /\ isDirectory m = stats_isDirectory (mkStats false 3)
       /\ size m = stats_size (mkStats false 3)
       /\ path.join [dirname m; basename m] = fullpath m.
Proof.
  assert (H : Forall (fun c => entry_name c = true) [lit "tmp"; lit "x"])
    by (repeat constructor).
  split; [exact H|]. split; [reflexivity|]. split; [reflexivity|].
  apply (getFileMetadata_in_directory fs_tmp_x [lit "tmp"; lit "x"]
           (lit "notes.txt") (mkStats false 3) H); reflexivity.
Defined.

(** The base and the directory of a normalized absolute path. *)
Lemma parse_absolute_path_snoc (cs : list str) (n : str) :
  entry_name n = true ->
  path.base (path.parse (absolute_path (cs ++ [n]))) = n
  /\ path.dir (path.parse (absolute_path (cs ++ [n]))) = root_path cs.
Proof.
  intros Hn.
  pose proof (entry_name_inv n Hn) as (Hne & Hsep & _).
  rewrite absolute_path_snoc. split.
  - replace (absolute_path cs ++ path.sep :: n)
      with ((absolute_path cs ++ [path.sep]) ++ n)
      by (rewrite <- app_assoc; reflexivity).
    apply parse_entry_name; [right; eexists; reflexivity | assumption].
  - destruct (parse_dir_entry_name (absolute_path cs) n Hne Hsep)
      as (_ & Hroot & Hunder).
    destruct cs as [|c cs]; [exact Hroot|].
    apply Hunder. discriminate.
Qed.

Lemma firstn_succ_nth {A : Type} (l : list A) (i : nat) (c : A) :
  nth_error l i = Some c -> firstn (S i) l = firstn i l ++ [c].
Proof.
  revert i; induction l as [|x l IH]; intros [|i] H; simpl in *;
    try discriminate.
  - injection H as ->. reflexivity.
  - f_equal. apply IH. exact H.
Qed.

(** A map that returns gives, at every index, what the call on the
    element at that index returned. *)
Lemma map_from_inv {A B : Type} (iteratee : A -> nat -> io B) :
  forall (array : list A) (index : nat) (l : list B),
    outcome (lodash.map_from index array iteratee) = Normal l ->
    forall j x, nth_error array j = Some x ->
      exists b, outcome (iteratee x (index + j)%nat) = Normal b
                /\ nth_error l j = Some b.
Proof.
  induction array as [|a xs IH]; intros index l H j x Hj.
  - destruct j; discriminate.
  - cbn [lodash.map_from] in H. rewrite outcome_bind in H.
    destruct (outcome (iteratee a index)) as [y|e] eqn:Ey; [|discriminate].
    rewrite outcome_bind in H.
    destruct (outcome (lodash.map_from (S index) xs iteratee)) as [ys|e] eqn:E;
      [|discriminate].
    unfold ret, outcome in H. simpl in H. injection H as <-.
    destruct j as [|j].
    + simpl in Hj. injection Hj as <-. rewrite Nat.add_0_r.
      exists y. split; [assumption | reflexivity].
    + destruct (IH (S index) ys E j x Hj) as (b & Hb & Hnth).
      exists b. rewrite <- Nat.add_succ_comm. split; assumption.
Qed.

(** The records that [subpaths] returns for an absolute path form a
    chain from the root down: the first one is the record of the root,
    and the record of every component has that component as [basename]
    and the [fullpath] of the record before it as [dirname], its own
    [fullpath] being the join of the two. *)
Theorem subpaths_chain :
  forall (fs : FileSystem) (s : str) (records : list FileMetadata),
    path.isAbsolute s = true ->
    Forall (fun c => c <> lit "." /\ c <> lit "..") (components s) ->
    outcome (subpaths fs (VString s)) = Normal (Some records) ->
    (exists root,
       nth_error records 0 = Some root
       /\ fullpath root = lit "/" /\ dirname root = lit "/"
       /\ basename root = [])
    /\ forall i c,
         nth_error (components s) i = Some c ->
         exists parent m,
           nth_error records i = Some parent
           /\ nth_error records (S i) = Some m
           /\ basename m = c
           /\ dirname m = fullpath parent
           /\ fullpath m = path.join [fullpath parent; c].
Proof.
  intros fs s records Habs Hdots H.
  pose proof (components_entry_names s Hdots) as Hcs.
  rewrite subpaths_unfold, bind_ret_some in H. unfold outcome at 1 in H.
  simpl in H.
  rewrite (subpaths_dirs_of_absolute s (or_introl Habs)) in H.
  destruct (outcome (lodash.map _ _)) as [l|e] eqn:E; [|discriminate].
  injection H as ->. unfold lodash.map in E.
  assert (Hlevel : forall j x,
            nth_error (lit "/" :: components s) j = Some x ->
            exists stats,
              nth_error records j
              = Some (metadata_of (root_path (firstn j (components s))) stats)).
  { intros j x Hj.
    destruct (map_from_inv _ _ _ _ E j x Hj) as (b & Hb & Hnth).
    simpl Nat.add in Hb. rewrite subpaths_level in Hb by assumption.
    unfold level_metadata in Hb.
    destruct (fs_lstat fs (root_path (firstn j (components s)))) as [stats|e];
      [|discriminate].
    injection Hb as <-. exists stats. exact Hnth. }
  split.
  - destruct (Hlevel 0%nat (lit "/") eq_refl) as (stats & Hroot).
    eexists. split; [exact Hroot|]. repeat split.
  - intros i c Hi.
    assert (Hparent : exists x, nth_error (lit "/" :: components s) i = Some x).
    { destruct i as [|i]; [eexists; reflexivity|].
      simpl. destruct (nth_error (components s) i) eqn:En; [eauto|].
      apply nth_error_None in En.
      assert (S i < List.length (components s))%nat
        by (apply nth_error_Some; congruence).
      lia. }
    destruct Hparent as (x & Hx).
    destruct (Hlevel i x Hx) as (pstats & Hp).
    destruct (Hlevel (S i) c Hi) as (stats & Hm).
    eexists; eexists. split; [exact Hp|]. split; [exact Hm|].
    rewrite (firstn_succ_nth _ _ _ Hi).
    assert (Hc : entry_name c = true).
    { rewrite Forall_forall in Hcs. apply Hcs.
      eapply nth_error_In; eassumption. }
    assert (Hpre : Forall (fun c => entry_name c = true)
                     (firstn i (components s)))
      by (apply Forall_firstn_entry; assumption).
    assert (Hroot : root_path (firstn i (components s) ++ [c])
                    = absolute_path (firstn i (components s) ++ [c]))
      by (destruct (firstn i (components s)); reflexivity).
    rewrite Hroot.
    destruct (parse_absolute_path_snoc (firstn i (components s)) c Hc)
      as [Hbase Hdir].
    unfold metadata_of. cbn [basename dirname fullpath].
    rewrite Hbase, Hdir.
    split; [reflexivity|]. split; [reflexivity|].
    symmetry. apply join_root_path_entry; assumption.
Qed.

Lemma subpaths_chain_witness :
  exists records,
    path.isAbsolute (lit "/tmp/x") = true
    /\ outcome (subpaths fs_tmp_x (VString (lit "/tmp/x")))
       = Normal (Some records)
    /\ (exists root,
          nth_error records 0 = Some root
          /\ fullpath root = lit "/" /\ dirname root = lit "/"
          /\ basename root = [])
    /\ forall i c,
         nth_error (components (lit "/tmp/x")) i = Some c ->
         exists parent m,
           nth_error records i = Some parent
           /\ nth_error records (S i) = Some m
           /\ basename m = c
           /\ dirname m = fullpath parent
           /\ fullpath m = path.join [fullpath parent; c].
Proof.
  eexists. split; [reflexivity|]. split; [reflexivity|].
  apply (subpaths_chain fs_tmp_x (lit "/tmp/x")).
  - reflexivity.
  - vm_compute. repeat constructor; discriminate.
  - reflexivity.
Defined.

(** ** Name and extension of an entry *)

(** For an entry name whose status query succeeds, the [extension] of
    the record holds no dot, and the [basename] can be put together
    again from [name] and [extension]: with a dot between them when the
    [extension] is not empty, and otherwise as [name] alone or, for a
    name that ends with a dot after other code units, as [name] and
    that dot. *)
Theorem getFileMetadata_name_extension :
  forall (fs : FileSystem) (d n : str) (m : FileMetadata),
    entry_name n = true ->
    outcome (getFileMetadataSync fs d (Some n)) = Normal m ->
    basename m = n
    /\ no_dot (extension m) = true
    /\ (extension m <> [] ->
        basename m = name m ++ CHAR_DOT :: extension m)
    /\ (extension m = [] ->
        basename m = name m \/ basename m = name m ++ [CHAR_DOT]).
Proof.
  intros fs d n m Hn Hm.
  destruct (metadata_entry_name fs d n m Hn Hm) as (-> & -> & -> & _).
  split; [reflexivity|].
  destruct (split_last_dot n) as [[[|c a] b]|] eqn:E.
  - split; [reflexivity|]. split; [congruence | auto].
  - apply split_last_dot_some in E. destruct E as [En Hb].
    split; [exact Hb|]. split.
    + intros _. exact En.
    + intros ->. right. exact En.
  - split; [reflexivity|]. split; [congruence | auto].
Qed.

Lemma getFileMetadata_name_extension_witness :
  exists m,
    entry_name (lit "archive.tar.gz") = true
    /\ outcome (getFileMetadataSync fs_all_dirs (lit "/srv")
                  (Some (lit "archive.tar.gz"))) = Normal m
    /\ basename m = lit "archive.tar.gz"
    /\ no_dot (extension m) = true
    /\ (extension m <> [] ->
        basename m = name m ++ CHAR_DOT :: extension m)
    /\ (extension m = [] ->
        basename m = name m \/ basename m = name m ++ [CHAR_DOT]).
Proof.
  eexists. split; [reflexivity|]. split; [reflexivity|].
  apply (getFileMetadata_name_extension fs_all_dirs (lit "/srv")
           (lit "archive.tar.gz")); reflexivity.
Defined.

(** ** subpaths on a relative path *)

Lemma last_code_cons (a : ascii) (q : str) :
  q <> [] -> path.last_code (a :: q) = path.last_code q.
Proof.
  intros H. change (a :: q) with ([a] ++ q). apply last_code_app. exact H.
Qed.

Lemma relative_path_absolute (c : str) (cs : list str) :
  path.sep :: relative_path (c :: cs) = absolute_path (c :: cs).
Proof. reflexivity. Qed.

(** [path.normalize] leaves a relative path of entry names as it is. *)
Lemma normalize_relative_path (c : str) (cs : list str) :
  Forall (fun c => entry_name c = true) (c :: cs) ->
  path.normalize (relative_path (c :: cs)) = relative_path (c :: cs).
Proof.
  intros Hcs.
  inversion Hcs as [|? ? Hc Hcs']; subst.
  pose proof (entry_name_len c Hc) as Hclen.
  pose proof (entry_name_inv c Hc) as (Hcne & Hcsep & _).
  set (p := relative_path (c :: cs)).
  assert (Hpne : p <> []).
  { unfold p. simpl. destruct c; [congruence | discriminate]. }
  assert (Hlen : (len p =? 0) = false).
  { apply Z.eqb_neq. intros H. apply len_zero in H. contradiction. }
  assert (Habs : path.isAbsolute p = false).
  { unfold p. simpl. destruct c as [|a c]; [congruence|]. simpl.
    simpl in Hcsep. apply andb_true_iff in Hcsep. destruct Hcsep as [H _].
    apply negb_true_iff in H. exact H. }
  assert (Hlast : isPosixPathSeparator (path.last_code p) = false).
  { rewrite <- (last_code_cons path.sep p Hpne).
    unfold p. rewrite relative_path_absolute.
    apply (last_code_absolute_path [] (c :: cs)); [discriminate | assumption]. }
  assert (Hfold : fold_left push_segment (c :: cs) [] = p).
  { pose proof (fold_push_segment_nil c cs Hclen) as H.
    rewrite <- relative_path_absolute in H. injection H as H. exact H. }
  assert (Hns : path.normalizeString p true = p).
  { rewrite normalizeString_last_step by assumption.
    assert (Hp : p ++ [path.sep] = [] ++ segments (c :: cs)).
    { unfold p. simpl app.
      assert (H := absolute_path_segments (c :: cs)).
      rewrite <- relative_path_absolute in H. simpl app in H.
      injection H as H. exact H. }
    pose proof (normalize_loop_segments p true (c :: cs) [] path.nstate_init
                  Hcs Hp eq_refl eq_refl) as H.
    change (len []) with 0 in H. simpl app in Hp. rewrite Hp.
    rewrite H. exact Hfold. }
  unfold path.normalize. rewrite Hlen, Habs, Hlast. simpl negb.
  rewrite Hns, Hlen. reflexivity.
Qed.

Lemma join_entry_names (c : str) (cs : list str) :
  Forall (fun c => entry_name c = true) (c :: cs) ->
  path.join (c :: cs) = relative_path (c :: cs)
  /\ path.join (@cons str (relative_path (c :: cs)) (@cons str [] (@nil str)))
     = relative_path (c :: cs).
Proof.
  intros Hcs.
  inversion Hcs as [|? ? Hc Hcs']; subst.
  pose proof (entry_name_len c Hc) as Hclen.
  assert (Hpos : (0 <? len (relative_path (c :: cs))) = true).
  { apply Z.ltb_lt. simpl. rewrite len_app.
    pose proof (len_nonneg (absolute_path cs)). lia. }
  split.
  - unfold path.join. simpl path.join_loop.
    replace (0 <? len c) with true by (symmetry; apply Z.ltb_lt; assumption).
    rewrite join_loop_entry_names by assumption.
    apply normalize_relative_path; assumption.
  - unfold path.join. cbn [path.join_loop].
    rewrite Hpos. change (0 <? len []) with false. cbv iota.
    apply normalize_relative_path; assumption.
Qed.

(** The list [dirs] of [subpaths] on a relative path that is not
    empty: its components, with nothing for the root. *)
Lemma subpaths_dirs_of_relative (s : str) :
  path.isAbsolute s = false -> s <> [] ->
  subpaths_dirs_of s = components s.
Proof.
  intros Habs Hne. destruct s as [|c s]; [congruence|].
  unfold subpaths_dirs_of, components. simpl in *.
  unfold isPosixPathSeparator in Habs.
  change CHAR_FORWARD_SLASH with path.sep in Habs. rewrite Habs.
  destruct (split path.sep s); reflexivity.
Qed.

(** On a relative path that is not empty and whose [k] components are
    neither [.] nor [..], when the status query of every prefix
    succeeds, [subpaths] returns [k] records, none for a root: their
    [fullpath]s are the relative prefixes ["c1"], ["c1/c2"], ... in
    order, and these are the paths it queried, in that order. *)
Theorem subpaths_relative :
  forall (fs : FileSystem) (s : str),
    path.isAbsolute s = false ->
    s <> [] ->
    Forall (fun c => c <> lit "." /\ c <> lit "..") (components s) ->
    (forall i, (1 <= i <= List.length (components s))%nat ->
       exists stats,
         fs_lstat fs (relative_path (firstn i (components s))) = Normal stats) ->
    exists records,
      outcome (subpaths fs (VString s)) = Normal (Some records)
      /\ List.map fullpath records
         = List.map (fun i => relative_path (firstn i (components s)))
             (seq 1 (List.length (components s)))
      /\ trace (subpaths fs (VString s))
         = List.map (fun i => QLstat (relative_path (firstn i (components s))))
             (seq 1 (List.length (components s))).
Proof.
  intros fs s Habs Hne Hdots Hok.
  pose proof (components_entry_names s Hdots) as Hcs.
  set (cs := components s) in *.
  set (level := fun i : nat =>
         metadata_of (relative_path (firstn (i + 1) cs))
           (match fs_lstat fs (relative_path (firstn (i + 1) cs)) with
            | Normal stats => stats
            | Throw _ => mkStats false 0
            end)).
  assert (Hrun :
    lodash.map_from 0 cs (fun dir index =>
      getFileMetadataSync fs (path.join (firstn (index + 1) cs)) None)
    = (List.map (fun i => QLstat (relative_path (firstn (i + 1) cs)))
         (seq 0 (List.length cs)),
       Normal (List.map level (seq 0 (List.length cs))))).
  { apply map_from_runs. intros j x Hj. simpl Nat.add.
    assert (Hjk : (j < List.length cs)%nat)
      by (apply nth_error_Some; congruence).
    assert (Hpre : Forall (fun c => entry_name c = true) (firstn (j + 1) cs))
      by (apply Forall_firstn_entry; assumption).
    destruct (firstn (j + 1) cs) as [|c rest] eqn:Ef.
    { apply (f_equal (@List.length str)) in Ef.
      rewrite length_firstn in Ef. simpl in Ef. lia. }
    destruct (join_entry_names c rest Hpre) as [Hjoin Hjoin'].
    rewrite (io_eta (getFileMetadataSync _ _ _)).
    rewrite getFileMetadataSync_trace, getFileMetadataSync_outcome.
    cbn [default_empty]. rewrite Hjoin, Hjoin'.
    unfold level. rewrite Ef.
    destruct (Hok (j + 1)%nat) as (stats & Hs); [lia|].
    rewrite Ef in Hs. rewrite Hs. reflexivity. }
  exists (List.map level (seq 0 (List.length cs))).
  rewrite subpaths_unfold, bind_ret_some.
  rewrite (subpaths_dirs_of_relative s Habs Hne). fold cs.
  unfold lodash.map. rewrite Hrun. unfold outcome, trace. simpl fst. simpl snd.
  split; [reflexivity|].
  rewrite <- !seq_shift, !map_map.
  split; apply map_ext; intros i; unfold level; rewrite Nat.add_1_r;
    reflexivity.
Qed.

Lemma subpaths_relative_witness :
  path.isAbsolute (lit "build/out") = false
  /\ lit "build/out" <> []
  /\ Forall (fun c => c <> lit "." /\ c <> lit "..")
       (components (lit "build/out"))
  /\ exists records,
       outcome (subpaths fs_all_dirs (VString (lit "build/out")))
       = Normal (Some records)
       /\ List.map fullpath records
          = List.map (fun i => relative_path (firstn i (components (lit "build/out"))))
              (seq 1 (List.length (components (lit "build/out"))))
       /\ trace (subpaths fs_all_dirs (VString (lit "build/out")))
          = List.map (fun i => QLstat (relative_path
                                         (firstn i (components (lit "build/out")))))
              (seq 1 (List.length (components (lit "build/out")))).
Proof.
  assert (Hne : lit "build/out" <> []) by discriminate.
  assert (H : Forall (fun c => c <> lit "." /\ c <> lit "..")
                (components (lit "build/out"))).
  { vm_compute. repeat constructor; discriminate. }
  split; [reflexivity|]. split; [exact Hne|]. split; [exact H|].
  apply (subpaths_relative fs_all_dirs (lit "build/out") eq_refl Hne H).
  intros i _. eexists. reflexivity.
Defined.

(** ** Looking a record up again *)

Lemma promisify_fulfilled {A : Type} (c : completion A) (a : A) :
  promisify c = Fulfilled a -> c = Normal a.
Proof. destruct c; simpl; congruence. Qed.

(** A record of an entry of a normalized absolute directory names its
    own lookup: on the same state of the file system, the builder
    called with the [dirname] and [basename] of the record, and the
    builder called with its [fullpath] alone, both return the record
    again. *)
Theorem getFileMetadata_round_trip :
  forall (fs : FileSystem) (cs : list str) (n : str) (m : FileMetadata),
    Forall (fun c => entry_name c = true) cs ->
    entry_name n = true ->
    outcome (getFileMetadataSync fs (root_path cs) (Some n)) = Normal m ->
    outcome (getFileMetadataSync fs (dirname m) (Some (basename m))) = Normal m
    /\ outcome (getFileMetadataSync fs (fullpath m) None) = Normal m.
Proof.
  intros fs cs n m Hcs Hn Hm.
  pose proof Hm as Hm'.
  apply getFileMetadataSync_success in Hm'.
  destruct Hm' as (stats & Hs & ->).
  cbn [default_empty] in *.
  rewrite (join_root_path_entry cs n Hcs Hn) in *.
  destruct (parse_absolute_path_snoc cs n Hn) as [Hbase Hdir].
  assert (Hd : dirname (metadata_of (absolute_path (cs ++ [n])) stats)
               = root_path cs) by exact Hdir.
  assert (Hb : basename (metadata_of (absolute_path (cs ++ [n])) stats) = n)
    by exact Hbase.
  assert (Hf : fullpath (metadata_of (absolute_path (cs ++ [n])) stats)
               = absolute_path (cs ++ [n])) by reflexivity.
  rewrite Hd, Hb, Hf. split; [exact Hm|].
  assert (Hall : Forall (fun c => entry_name c = true) (cs ++ [n]))
    by (apply Forall_app; split;
        [assumption | constructor; [assumption | constructor]]).
  assert (Hroot : root_path (cs ++ [n]) = absolute_path (cs ++ [n]))
    by (destruct cs; reflexivity).
  rewrite getFileMetadataSync_outcome. cbn [default_empty].
  pose proof (join_root_path (cs ++ [n]) Hall) as Hj.
  rewrite <- Hroot. unfold str in *. rewrite Hj, Hroot, Hs.
  reflexivity.
Qed.

Lemma getFileMetadata_round_trip_witness :
  exists m,
    Forall (fun c => entry_name c = true) [lit "tmp"; lit "x"]
    /\ entry_name (lit "sub") = true
    /\ outcome (getFileMetadataSync fs_tmp_x (root_path [lit "tmp"; lit "x"])
                  (Some (lit "sub"))) = Normal m
    /\ outcome (getFileMetadataSync fs_tmp_x (dirname m) (Some (basename m)))
       = Normal m
    /\ outcome (getFileMetadataSync fs_tmp_x (fullpath m) None) = Normal m.
Proof.
  assert (H : Forall (fun c => entry_name c = true) [lit "tmp"; lit "x"])
    by (repeat constructor).
  eexists. split; [exact H|]. split; [reflexivity|]. split; [reflexivity|].
  apply (getFileMetadata_round_trip fs_tmp_x [lit "tmp"; lit "x"] (lit "sub")
           _ H); reflexivity.
Defined.

(** ** The batch lookup on the entries of a listing *)

(** The batch lookup does on a list of entry names what the listing
    with metadata is meant to do: when the status query of every name
    succeeds it is fulfilled, in any order of settlement, with records
    whose [basename]s are the names, one for one and in order. *)
Theorem getAllFilesMetadataAsync_basenames :
  forall (fs : FileSystem) (dirname : str) (basenames : list str)
         (sched : list nat),
    Permutation sched (seq 0 (List.length basenames)) ->
    Forall (fun n => entry_name n = true) basenames ->
    (forall n, In n basenames ->
               exists s, fs_lstat fs (path.join [dirname; n]) = Normal s) ->
    exists records,
      getAllFilesMetadataAsync fs dirname basenames sched = Fulfilled records
      /\ List.map basename records = basenames
      /\ Forall2 (fun n m => isHidden m = startsWith_dot n) basenames records.
Proof.
  intros fs d names sched Hperm Hnames Hok.
  exists (values_of (List.map (lookup fs d) names)).
  split.
  - rewrite getAllFilesMetadataAsync_lookups.
    rewrite (Bluebird_map_settled names _ (List.map (lookup fs d) names) sched
               (iterate_lookups fs d names) (lookups_settle fs d names));
      [|rewrite length_map; assumption].
    rewrite first_rejection_none; [reflexivity|].
    intros n Hn. destruct (Hok n Hn) as (s & Hs).
    destruct (lookup_fulfilled fs d n s Hs) as (m & Hm & _). eauto.
  - pose proof (values_of_lookups fs d names Hok) as Hrec.
    clear Hperm Hok.
    revert Hnames. induction Hrec as [|n m names' records' [Hm _] Hrest IH];
      intros Hnames; [split; constructor|].
    inversion Hnames as [|? ? Hn Hnames']; subst.
    destruct (IH Hnames') as [IHb IHh].
    unfold lookup in Hm. rewrite getFileMetadataAsync_outcome in Hm.
    apply promisify_fulfilled in Hm.
    destruct (metadata_entry_name fs d n m Hn Hm) as (Hb & _ & _ & Hh).
    split.
    + simpl. rewrite Hb, IHb. reflexivity.
    + constructor; assumption.
Qed.

Lemma getAllFilesMetadataAsync_basenames_witness :
  Permutation [1%nat; 0%nat]
    (seq 0 (List.length [lit "notes.txt"; lit "sub"]))
  /\ Forall (fun n => entry_name n = true) [lit "notes.txt"; lit "sub"]
  /\ exists records,
       getAllFilesMetadataAsync fs_tmp_x (lit "/tmp/x")
         [lit "notes.txt"; lit "sub"] [1%nat; 0%nat] = Fulfilled records
       /\ List.map basename records = [lit "notes.txt"; lit "sub"]
       /\ Forall2 (fun n m => isHidden m = startsWith_dot n)
            [lit "notes.txt"; lit "sub"] records.
Proof.
  assert (H : Permutation [1%nat; 0%nat]
                (seq 0 (List.length [lit "notes.txt"; lit "sub"])))
    by (simpl; apply perm_swap).
  assert (Hn : Forall (fun n => entry_name n = true)
                 [lit "notes.txt"; lit "sub"])
    by (repeat constructor).
  split; [exact H|]. split; [exact Hn|].
  apply (getAllFilesMetadataAsync_basenames fs_tmp_x (lit "/tmp/x")
           [lit "notes.txt"; lit "sub"] [1%nat; 0%nat] H Hn).
  intros n [<-|[<-|[]]]; eexists; vm_compute; reflexivity.
Defined.
